(** * SortWindowBuild: the sort-based window partition builder

    A shallow embedding of [velox/exec/SortWindowBuild.cpp].  Row handles
    ([char*] into the row container) are modelled by the rows they point
    to; [std::vector] members are lists; the machine integers of the
    source ([vector_size_t] and [int] are 32-bit signed, [size_t] is
    64-bit unsigned) are integers of [Z] with the conversions written
    out. *)

From Stdlib Require Import ZArith List Bool Lia Permutation Sorted.
Import ListNotations.
Open Scope Z_scope.

(** ** Machine integers *)

(** [int] and [vector_size_t]: two's complement on 32 bits. *)
Definition int32 (z : Z) : Z := (z + 2 ^ 31) mod 2 ^ 32 - 2 ^ 31.

(** Conversion to [size_t], as the usual arithmetic conversions do when
    an [int] meets a [size_t] in a comparison or a subtraction. *)
Definition u64 (z : Z) : Z := z mod 2 ^ 64.

(** [v[i]] for a vector indexed by a signed integer; an index outside
    the vector has no defined result. *)
Definition vectorAt {A : Type} (v : list A) (i : Z) : option A :=
  if i <? 0 then None else nth_error v (Z.to_nat i).

Definition size {A : Type} (v : list A) : Z := Z.of_nat (length v).

(** [v.resize(n)]: keeps the first [n] elements and pads with [d]. *)
Definition resize {A : Type} (n : nat) (v : list A) (d : A) : list A :=
  firstn n v ++ repeat d (n - length v).

(** ** Comparison flags *)

Inductive NullHandlingMode := kNullAsValue | kNullAsIndeterminate.

(** Modelled from the spec: the [CompareFlags] struct, whose declaration is
    not part of this file; the spec gives its fields as the triple
    nullsFirst, ascending, equalityOnly, and the null handling mode that
    [CompareFlags::equality] takes. *)
Record CompareFlags := mkCompareFlags {
  nullsFirst : bool;
  ascending : bool;
  equalsOnly : bool;
  nullHandlingMode : NullHandlingMode
}.

(** Modelled from the spec: [CompareFlags::equality(mode)], declared with
    the struct; an equality-only comparison with the given treatment of
    nulls. *)
Definition equality (mode : NullHandlingMode) : CompareFlags :=
  mkCompareFlags true true true mode.

Record SortOrder := mkSortOrder { isAscending : bool; isNullsFirst : bool }.


(** ** Failures *)

(** The fatal checks of the file, and the two ways the model itself can
    stop: an access outside a vector and an exhausted loop budget. *)
Inductive Failure :=
| NoWindowPartitionsAvailable
| AllWindowPartitionsConsumed
| SortedRowsEmpty
| SpillerNotNull
| MergeNotNull
| SpillPartitionSetSize
| OutOfBounds
| OutOfFuel.

Inductive Result (A : Type) :=
| Ok (a : A)
| Fail (e : Failure).
Arguments Ok {A} a.
Arguments Fail {A} e.

Definition bind {A B : Type} (r : Result A) (k : A -> Result B) : Result B :=
  match r with
  | Ok a => k a
  | Fail e => Fail e
  end.

Notation "x <- r ;; k" := (bind r (fun x => k))
  (at level 61, r at next level, right associativity).

Record SpillConfig := mkSpillConfig {
  minSpillableReservationPct : Z;
  spillableReservationGrowthPct : Z;
  readBufferSize : Z
}.

(** A line of [LOG(WARNING)]: the bytes that could not be reserved, and
    the usage and the reservation of the pool at that point. *)
Inductive Warning :=
| FailedToReserve (bytes usage reservation : Z).

(** ** Collaborators

    The base class of the builder, the row container, the memory pool,
    the prefix sort, the spiller and its merge reader live outside this
    file; the builder reaches them only through the calls below. *)

Class Collaborators := {
  (** A stored row, which stands for the handle that points to it. *)
  Row : Type;

  (** [WindowBuild::compareRowsWithKeys(lhs, rhs, partitionKeyInfo_)]:
      declared in the base class, it tells whether [lhs] orders strictly
      before [rhs] on the partition keys. *)
  compareRowsWithKeys : Row -> Row -> bool;

  (** The handle [sortedRows_.resize] fills new slots with. *)
  nullRow : Row;

  (** The value-initialised [CompareFlags] of [compareFlags.push_back({})].
      The member defaults are in the declaration of the struct, which is
      not part of this file: the builder only passes the value on. *)
  defaultCompareFlags : CompareFlags;

  (** [data_->compare(row, data_->columnAt(i), next->decoded(i),
      next->currentIndex(), flags)]: the row of the container against the
      current row of a merge stream, on column [i]. *)
  compare : Row -> nat -> Row -> CompareFlags -> Z;

  (** [data_->freeSpace()], [data_->stringAllocator().retainedSize()] and
      [data_->sizeIncrement(numRows, variableLengthBytes)]. *)
  freeSpace : list Row -> Z * Z;
  retainedSize : list Row -> Z;
  sizeIncrement : list Row -> Z -> Z -> Z;

  (** The memory pool.  What it reports depends on its reservation state
      and on the rows the container holds in it. *)
  Pool : Type;
  usedBytes : Pool -> list Row -> Z;
  availableReservation : Pool -> list Row -> Z;
  reservedBytes : Pool -> list Row -> Z;
  maybeReserve : Pool -> list Row -> Z -> bool * Pool;
  release : Pool -> Pool;

  (** [PrefixSort::maxRequiredBytes] and [PrefixSort::sort]. *)
  maxRequiredBytes : list Row -> list CompareFlags -> Z;
  prefixSort : list CompareFlags -> list Row -> list Row;

  (** [SortInputSpiller::spill]: the run written for the rows of the
      container, under the sorting keys made from the compare flags. *)
  spillRun : list CompareFlags -> list Row -> list Row;

  (** [createOrderedReader]: the merge stream over the runs of the one
      spill partition. *)
  createOrderedReader : list CompareFlags -> list (list Row) -> list Row
}.

(** ** A concrete setting

    Rows of a partition key and a payload, ordered by the key; the sort,
    the spilled runs and the merge stream by insertion; a pool that
    never grants a reservation. *)

Module Keyed.

Definition before (a b : Z * Z) : bool := fst a <? fst b.

Definition compareColumn (a : Z * Z) (i : nat) (b : Z * Z)
    (flags : CompareFlags) : Z :=
  match i with
  | O => fst a - fst b
  | S _ => snd a - snd b
  end.

Fixpoint insert (r : Z * Z) (rows : list (Z * Z)) : list (Z * Z) :=
  match rows with
  | [] => [r]
  | x :: rows' => if before r x then r :: rows else x :: insert r rows'
  end.

Definition sort (flags : list CompareFlags) (rows : list (Z * Z))
    : list (Z * Z) :=
  fold_right insert [] rows.

Definition merge (flags : list CompareFlags) (runs : list (list (Z * Z)))
    : list (Z * Z) :=
  fold_right insert [] (concat runs).

Definition collaborators : Collaborators := {|
  Row := Z * Z;
  compareRowsWithKeys := before;
  nullRow := (0, 0);
  defaultCompareFlags := mkCompareFlags true true false kNullAsValue;
  compare := compareColumn;
  freeSpace := fun _ => (0, 0);
  retainedSize := fun _ => 0;
  sizeIncrement := fun _ numRows variableLengthBytes =>
                     16 * numRows + variableLengthBytes;
  Pool := unit;
  usedBytes := fun _ rows => 16 * size rows;
  availableReservation := fun _ _ => 0;
  reservedBytes := fun _ rows => 16 * size rows;
  maybeReserve := fun pool _ _ => (false, pool);
  release := fun pool => pool;
  maxRequiredBytes := fun _ _ => 0;
  prefixSort := sort;
  spillRun := sort;
  createOrderedReader := merge
|}.

Definition spillConfig : SpillConfig := mkSpillConfig 5 10 1024.

(** One partition of 2^30 + 1 rows. *)
Definition onePartition : list (Z * Z) :=
  repeat (7, 0) (Z.to_nat (2 ^ 30 + 1)).

End Keyed.

(** ** The builder *)

Section SortWindowBuild.

Context {collaborators : Collaborators}.

(** *** Compare flags *)

(** One value-initialised entry for each partition key, then one entry
    for each sorting order, which sets the first three members and
    leaves the last to its default. *)
Definition makeCompareFlags (numPartitionKeys : nat)
    (sortingOrders : list SortOrder) : list CompareFlags :=
  repeat defaultCompareFlags numPartitionKeys
  ++ map (fun order =>
            mkCompareFlags (isNullsFirst order) (isAscending order) false
              (nullHandlingMode defaultCompareFlags))
       sortingOrders.

(** *** Partition boundary search *)

(** The inner [for] loop of [findNextPartitionStartRow].  It returns the
    values of [distance] and [lastPosition] when the loop is left,
    either by its condition or by the [break]. *)
Fixpoint probe (fuel : nat) (sortedRows_ : list Row)
    (left distance lastPosition : Z) : option (Z * Z) :=
  match fuel with
  | O => None
  | S fuel' =>
      if u64 distance <? u64 (lastPosition - left) then
        let right := int32 (left + distance) in
        match vectorAt sortedRows_ left, vectorAt sortedRows_ right with
        | Some l, Some r =>
            if compareRowsWithKeys l r
            then Some (distance, u64 right)
            else probe fuel' sortedRows_ left (int32 (distance * 2))
                   lastPosition
        | _, _ => None
        end
      else Some (distance, lastPosition)
  end.

(** The outer [while] loop. *)
Fixpoint search (fuel : nat) (sortedRows_ : list Row)
    (left right lastPosition : Z) : option Z :=
  match fuel with
  | O => None
  | S fuel' =>
      if u64 right <? lastPosition then
        match probe (S (length sortedRows_)) sortedRows_ left 1
                lastPosition with
        | Some (distance, lastPosition') =>
            let left' := int32 (left + Z.quot distance 2) in
            search fuel' sortedRows_ left' (int32 (left' + 1)) lastPosition'
        | None => None
        end
      else Some right
  end.

Definition findNextPartitionStartRow (sortedRows_ : list Row) (start : Z)
    : option Z :=
  search (S (length sortedRows_)) sortedRows_ start (int32 (start + 1))
    (u64 (size sortedRows_)).

(** *** The reference: a linear scan *)

(** Two rows are in different partitions when one orders before the
    other on the partition keys. *)
Definition keysDiffer (a b : Row) : bool :=
  compareRowsWithKeys a b || compareRowsWithKeys b a.

Fixpoint scanFrom (first : Row) (rest : list Row) (i : Z) : Z :=
  match rest with
  | [] => i
  | r :: rest' =>
      if keysDiffer first r then i else scanFrom first rest' (i + 1)
  end.

Definition linearScan (rows : list Row) (start : Z) : Z :=
  match skipn (Z.to_nat start) rows with
  | [] => size rows
  | first :: rest => scanFrom first rest (start + 1)
  end.

(** *** State

    The members of the builder, the warnings it has logged, and the test
    hook behind [testingTriggerSpill]: a global of the test harness, here
    the answer it gives at each evaluation and the evaluations so far. *)

Record State := mkState {
  spillConfig_ : option SpillConfig;
  numPartitionKeys_ : nat;
  compareFlags_ : list CompareFlags;
  pool_ : Pool;
  data_ : list Row;
  numRows_ : Z;
  sortedRows_ : list Row;
  partitionStartRows_ : list Z;
  currentPartition_ : Z;
  spiller_ : option (list (list Row));
  merge_ : option (list Row);
  testingSpill_ : nat -> bool;
  spillChecks_ : nat;
  warnings_ : list Warning
}.

Definition with_pool (st : State) (p : Pool) : State :=
  mkState (spillConfig_ st) (numPartitionKeys_ st) (compareFlags_ st) p
    (data_ st) (numRows_ st) (sortedRows_ st) (partitionStartRows_ st)
    (currentPartition_ st) (spiller_ st) (merge_ st) (testingSpill_ st)
    (spillChecks_ st) (warnings_ st).

Definition with_data (st : State) (d : list Row) : State :=
  mkState (spillConfig_ st) (numPartitionKeys_ st) (compareFlags_ st)
    (pool_ st) d (numRows_ st) (sortedRows_ st) (partitionStartRows_ st)
    (currentPartition_ st) (spiller_ st) (merge_ st) (testingSpill_ st)
    (spillChecks_ st) (warnings_ st).

Definition with_numRows (st : State) (n : Z) : State :=
  mkState (spillConfig_ st) (numPartitionKeys_ st) (compareFlags_ st)
    (pool_ st) (data_ st) n (sortedRows_ st) (partitionStartRows_ st)
    (currentPartition_ st) (spiller_ st) (merge_ st) (testingSpill_ st)
    (spillChecks_ st) (warnings_ st).

Definition with_sortedRows (st : State) (r : list Row) : State :=
  mkState (spillConfig_ st) (numPartitionKeys_ st) (compareFlags_ st)
    (pool_ st) (data_ st) (numRows_ st) r (partitionStartRows_ st)
    (currentPartition_ st) (spiller_ st) (merge_ st) (testingSpill_ st)
    (spillChecks_ st) (warnings_ st).

Definition with_partitionStartRows (st : State) (b : list Z) : State :=
  mkState (spillConfig_ st) (numPartitionKeys_ st) (compareFlags_ st)
    (pool_ st) (data_ st) (numRows_ st) (sortedRows_ st) b
    (currentPartition_ st) (spiller_ st) (merge_ st) (testingSpill_ st)
    (spillChecks_ st) (warnings_ st).

Definition with_currentPartition (st : State) (c : Z) : State :=
  mkState (spillConfig_ st) (numPartitionKeys_ st) (compareFlags_ st)
    (pool_ st) (data_ st) (numRows_ st) (sortedRows_ st)
    (partitionStartRows_ st) c (spiller_ st) (merge_ st) (testingSpill_
    st) (spillChecks_ st) (warnings_ st).

Definition with_spiller (st : State) (s : option (list (list Row))) : State :=
  mkState (spillConfig_ st) (numPartitionKeys_ st) (compareFlags_ st)
    (pool_ st) (data_ st) (numRows_ st) (sortedRows_ st)
    (partitionStartRows_ st) (currentPartition_ st) s (merge_ st)
    (testingSpill_ st) (spillChecks_ st) (warnings_ st).

Definition with_merge (st : State) (m : option (list Row)) : State :=
  mkState (spillConfig_ st) (numPartitionKeys_ st) (compareFlags_ st)
    (pool_ st) (data_ st) (numRows_ st) (sortedRows_ st)
    (partitionStartRows_ st) (currentPartition_ st) (spiller_ st) m
    (testingSpill_ st) (spillChecks_ st) (warnings_ st).

Definition with_spillChecks (st : State) (k : nat) : State :=
  mkState (spillConfig_ st) (numPartitionKeys_ st) (compareFlags_ st)
    (pool_ st) (data_ st) (numRows_ st) (sortedRows_ st)
    (partitionStartRows_ st) (currentPartition_ st) (spiller_ st) (merge_
    st) (testingSpill_ st) k (warnings_ st).

Definition with_warnings (st : State) (w : list Warning) : State :=
  mkState (spillConfig_ st) (numPartitionKeys_ st) (compareFlags_ st)
    (pool_ st) (data_ st) (numRows_ st) (sortedRows_ st)
    (partitionStartRows_ st) (currentPartition_ st) (spiller_ st) (merge_
    st) (testingSpill_ st) (spillChecks_ st) w.

(** The state the constructor leaves: nothing stored, no spiller and no
    merge stream.  The initial values of [numRows_] and
    [currentPartition_] are in the class declaration, outside this file;
    the first is a count that starts at zero, and of the second the spec
    says that the cursor starts before the first partition. *)
Definition construct (spillConfig : option SpillConfig)
    (numPartitionKeys : nat) (sortingOrders : list SortOrder) (pool : Pool)
    (testingSpill : nat -> bool) : State :=
  mkState spillConfig numPartitionKeys
    (makeCompareFlags numPartitionKeys sortingOrders) pool
    [] 0 [] [] (-1) None None testingSpill O [].

(** *** Spilling *)

(** [setupSpiller()]: its check that there is no spiller yet holds at its
    one call, which [spill] makes only when [spiller_] is null.  The new
    spiller has written no run. *)
Definition setupSpiller (st : State) : State :=
  with_spiller st (Some []).

(** [spill()]: the rows of the container go to a new run of the spiller,
    the container is cleared and the pool released. *)
Definition spill (st : State) : State :=
  let st0 := match spiller_ st with
             | None => setupSpiller st
             | Some _ => st
             end in
  let runs := match spiller_ st0 with
              | Some runs => runs
              | None => []
              end in
  let st1 := with_spiller st0
               (Some (runs ++ [spillRun (compareFlags_ st0) (data_ st0)])) in
  let st2 := with_data st1 [] in
  with_pool st2 (release (pool_ st2)).

(** One evaluation of the test hook. *)
Definition testingTriggerSpill (st : State) : bool * State :=
  (testingSpill_ st (spillChecks_ st),
   with_spillChecks st (S (spillChecks_ st))).

(** *** Memory fit guard *)

(** The test of [ensureInputFits] that the batch fits without growing the
    reservation. *)
Definition inputFits (cfg : SpillConfig) (st : State) (inputSize : Z)
    : bool :=
  let '(freeRows, outOfLineFreeBytes) := freeSpace (data_ st) in
  let outOfLineBytes := retainedSize (data_ st) - outOfLineFreeBytes in
  let outOfLineBytesPerRow := Z.quot outOfLineBytes (size (data_ st)) in
  let currentUsage := usedBytes (pool_ st) (data_ st) in
  let minReservationBytes :=
    Z.quot (currentUsage * minSpillableReservationPct cfg) 100 in
  let availableReservationBytes :=
    availableReservation (pool_ st) (data_ st) in
  (minReservationBytes <=? availableReservationBytes)
  && ((inputSize <? freeRows)
      && ((outOfLineBytes =? 0)
          || (outOfLineBytesPerRow * inputSize <=? outOfLineFreeBytes))).

Definition targetIncrementBytes (cfg : SpillConfig) (st : State)
    (inputSize : Z) : Z :=
  let '(freeRows, outOfLineFreeBytes) := freeSpace (data_ st) in
  let outOfLineBytes := retainedSize (data_ st) - outOfLineFreeBytes in
  let outOfLineBytesPerRow := Z.quot outOfLineBytes (size (data_ st)) in
  let currentUsage := usedBytes (pool_ st) (data_ st) in
  let incrementBytes :=
    sizeIncrement (data_ st) inputSize (outOfLineBytesPerRow * inputSize) in
  Z.max (incrementBytes * 2)
    (Z.quot (currentUsage * spillableReservationGrowthPct cfg) 100).

Definition ensureInputFits (st : State) (input : list Row) : State :=
  match spillConfig_ st with
  | None => st
  | Some cfg =>
      if size (data_ st) =? 0 then st
      else
        let (fire, st1) := testingTriggerSpill st in
        if fire then spill st1
        else if inputFits cfg st1 (size input) then st1
        else
          let target := targetIncrementBytes cfg st1 (size input) in
          let (reserved, pool') :=
            maybeReserve (pool_ st1) (data_ st1) target in
          let st2 := with_pool st1 pool' in
          if reserved then st2
          else with_warnings st2
                 (warnings_ st2
                  ++ [FailedToReserve target
                        (usedBytes (pool_ st2) (data_ st2))
                        (reservedBytes (pool_ st2) (data_ st2))])
  end.

Definition ensureSortFits (st : State) : State :=
  match spillConfig_ st with
  | None => st
  | Some cfg =>
      let (fire, st1) := testingTriggerSpill st in
      if fire then spill st1
      else
        match spiller_ st1 with
        | Some _ => st1
        | None =>
            let sortBufferToReserve :=
              u64 (u64 (numRows_ st1) * (8 + 4)
                   + maxRequiredBytes (data_ st1) (compareFlags_ st1)) in
            let (reserved, pool') :=
              maybeReserve (pool_ st1) (data_ st1) sortBufferToReserve in
            let st2 := with_pool st1 pool' in
            if reserved then st2
            else with_warnings st2
                   (warnings_ st2
                    ++ [FailedToReserve sortBufferToReserve
                          (usedBytes (pool_ st2) (data_ st2))
                          (reservedBytes (pool_ st2) (data_ st2))])
        end
  end.

(** *** Input accumulator *)

(** [addInput]: the guard, then one new row of the container per row of
    the batch, then the running count. *)
Definition addInput (st : State) (input : list Row) : State :=
  let st1 := ensureInputFits st input in
  let st2 := fold_left (fun s row => with_data s (data_ s ++ [row]))
               input st1 in
  with_numRows st2 (int32 (numRows_ st2 + size input)).

(** *** Sorting and boundaries *)

(** The [while] loop of [computePartitionStartRows]. *)
Fixpoint boundaryLoop (fuel : nat) (sortedRows : list Row) (start : Z)
    (partitionStartRows : list Z) : Result (list Z) :=
  match fuel with
  | O => Fail OutOfFuel
  | S fuel' =>
      if u64 start <? size sortedRows then
        match findNextPartitionStartRow sortedRows start with
        | Some next =>
            boundaryLoop fuel' sortedRows next (partitionStartRows ++ [next])
        | None => Fail OutOfBounds
        end
      else Ok partitionStartRows
  end.

Definition computePartitionStartRows (st : State) : Result State :=
  let starts := partitionStartRows_ st ++ [0] in
  if 0 <? size (sortedRows_ st) then
    starts' <- boundaryLoop (S (length (sortedRows_ st))) (sortedRows_ st) 0
                 starts ;;
    Ok (with_partitionStartRows st starts')
  else Fail SortedRowsEmpty.

(** [data_->listRows(&iter, numRows, out)]: the first [numRows] rows of
    the container over the front of the array. *)
Definition listRows (data : list Row) (numRows : nat) (out : list Row)
    : list Row :=
  let listed := firstn numRows data in
  listed ++ skipn (length listed) out.

Definition sortPartitions (st : State) : Result State :=
  let n := Z.to_nat (u64 (numRows_ st)) in
  let handles := listRows (data_ st) n (resize n (sortedRows_ st) nullRow) in
  computePartitionStartRows
    (with_sortedRows st (prefixSort (compareFlags_ st) handles)).

(** *** Finalisation *)

(** Modelled from the spec: [Spiller::finishSpill], which is not part of
    this file and must yield exactly one partition group; the group holds
    every run written. *)
Definition finishSpill (runs : list (list Row)) : list (list (list Row)) :=
  [runs].

Definition noMoreInput (st : State) : Result State :=
  if numRows_ st =? 0 then Ok st
  else
    let st1 := ensureSortFits st in
    st3 <- match spiller_ st1 with
           | Some _ =>
               let st2 := spill st1 in
               match merge_ st2 with
               | Some _ => Fail MergeNotNull
               | None =>
                   let spillPartitionSet :=
                     finishSpill (match spiller_ st2 with
                                  | Some runs => runs
                                  | None => []
                                  end) in
                   match spillPartitionSet with
                   | [partition] =>
                       Ok (with_merge st2
                             (Some (createOrderedReader (compareFlags_ st2)
                                      partition)))
                   | _ => Fail SpillPartitionSetSize
                   end
               end
           | None => sortPartitions st1
           end ;;
    Ok (with_pool st3 (release (pool_ st3))).

(** *** Partition iterator *)

(** The [for] loop over the partition key columns in
    [loadNextPartitionFromSpill]: whether some column of the stream's row
    differs from the last buffered row. *)
Fixpoint keyColumnsDiffer (back next : Row) (i : nat) (remaining : nat)
    : bool :=
  match remaining with
  | O => false
  | S remaining' =>
      if compare back i next (equality kNullAsValue) =? 0
      then keyColumnsDiffer back next (S i) remaining'
      else true
  end.

(** The [for (;;)] loop of [loadNextPartitionFromSpill], by recursion on
    the rows still in the merge stream: [next()] is the head of the
    stream and [pop()] drops it.  It returns the buffer, the container and
    the stream. *)
Fixpoint loadLoop (numPartitionKeys : nat) (stream : list Row)
    (sortedRows data : list Row) : list Row * list Row * list Row :=
  match stream with
  | [] => (sortedRows, data, [])
  | next :: stream' =>
      let newPartition :=
        match last (map Some sortedRows) None with
        | Some back => keyColumnsDiffer back next O numPartitionKeys
        | None => false
        end in
      if newPartition then (sortedRows, data, stream)
      else loadLoop numPartitionKeys stream' (sortedRows ++ [next])
             (data ++ [next])
  end.

Definition loadNextPartitionFromSpill (st : State) (stream : list Row)
    : State :=
  let '(sortedRows, data, stream') :=
    loadLoop (numPartitionKeys_ st) stream [] [] in
  with_merge (with_data (with_sortedRows st sortedRows) data) (Some stream').

(** A partition view: the range of row handles it covers. *)
Definition WindowPartition : Type := list Row.

Definition isEmpty {A : Type} (v : list A) : bool :=
  match v with
  | [] => true
  | _ :: _ => false
  end.

(** [nextPartition]: the result, and the state the call leaves (the
    cursor stays advanced when the second check of the memory mode
    fails). *)
Definition nextPartition (st : State) : Result WindowPartition * State :=
  match merge_ st with
  | Some _ =>
      if isEmpty (sortedRows_ st) then (Fail NoWindowPartitionsAvailable, st)
      else (Ok (sortedRows_ st), st)
  | None =>
      if isEmpty (partitionStartRows_ st)
      then (Fail NoWindowPartitionsAvailable, st)
      else
        let st1 := with_currentPartition st
                     (int32 (currentPartition_ st + 1)) in
        let c := currentPartition_ st1 in
        if u64 c <=? u64 (size (partitionStartRows_ st1) - 2) then
          match vectorAt (partitionStartRows_ st1) (int32 (c + 1)),
                vectorAt (partitionStartRows_ st1) c with
          | Some stop, Some start =>
              let partitionSize := int32 (stop - start) in
              (Ok (firstn (Z.to_nat partitionSize)
                     (skipn (Z.to_nat start) (sortedRows_ st1))), st1)
          | _, _ => (Fail OutOfBounds, st1)
          end
        else (Fail AllWindowPartitionsConsumed, st1)
  end.

Definition hasNextPartition (st : State) : bool * State :=
  match merge_ st with
  | Some stream =>
      let st1 := loadNextPartitionFromSpill st stream in
      (negb (isEmpty (sortedRows_ st1)), st1)
  | None =>
      ((0 <? size (partitionStartRows_ st))
       && (currentPartition_ st
           <? int32 (u64 (size (partitionStartRows_ st) - 2))),
       st)
  end.

(** *** Runs of the public interface *)

(** The batches of a run, in order. *)
Definition addInputs (st : State) (batches : list (list Row)) : State :=
  fold_left addInput batches st.

(** The caller's loop [while (hasNextPartition()) nextPartition()]: the
    views it collects, and the state it ends in. *)
Fixpoint drain (fuel : nat) (st : State)
    : Result (list WindowPartition) * State :=
  match fuel with
  | O => (Fail OutOfFuel, st)
  | S fuel' =>
      let (more, st1) := hasNextPartition st in
      if more then
        match nextPartition st1 with
        | (Ok partition, st2) =>
            match drain fuel' st2 with
            | (Ok rest, st3) => (Ok (partition :: rest), st3)
            | (Fail e, st3) => (Fail e, st3)
            end
        | (Fail e, st2) => (Fail e, st2)
        end
      else (Ok [], st1)
  end.

(** *** What the search and the loader are to establish *)

(** [p] is the start of the partition after the one of [start]: the rows
    strictly between them have the keys of [rows[start]], and [p] is the
    row count or a row whose keys differ. *)
Definition nextPartitionStart (rows : list Row) (start p : Z) : Prop :=
  start < p <= size rows
  /\ (forall j a b, start < j < p ->
        vectorAt rows start = Some a -> vectorAt rows j = Some b ->
        keysDiffer a b = false)
  /\ (p < size rows ->
      exists a b, vectorAt rows start = Some a /\ vectorAt rows p = Some b
                  /\ keysDiffer a b = true).

(** In sorted rows the partition of [start] is a block: a row of the
    block orders before exactly the rows from the next partition start
    on. *)
Definition blockOf (rows : list Row) (start p : Z) : Prop :=
  forall i j a b, start <= i < p -> i <= j < size rows ->
    vectorAt rows i = Some a -> vectorAt rows j = Some b ->
    compareRowsWithKeys a b = (p <=? j).

(** Consecutive rows of the buffer agree on every partition key column,
    under the equality comparison with nulls as values. *)
Definition consecutiveKeysEqual (numPartitionKeys : nat) (rows : list Row)
    : Prop :=
  forall k a b,
    nth_error rows k = Some a -> nth_error rows (S k) = Some b ->
    forall i, (i < numPartitionKeys)%nat ->
              compare a i b (equality kNullAsValue) = 0.

(** The stream stopped at its end, or at a row that differs from the last
    row of the buffer on some partition key column. *)
Definition stoppedAt (numPartitionKeys : nat) (buffer rest : list Row)
    : Prop :=
  rest = []
  \/ exists front back next rest',
       buffer = front ++ [back] /\ rest = next :: rest'
       /\ exists i, (i < numPartitionKeys)%nat
                    /\ compare back i next (equality kNullAsValue) <> 0.

(** *** Order on the partition keys *)

(** The comparison is a strict weak order: asymmetric, and a row that
    orders before another orders before, or has after it, any third. *)
Definition strictWeakOrder : Prop :=
  (forall a b, compareRowsWithKeys a b = true ->
               compareRowsWithKeys b a = false)
  /\ (forall a b c, compareRowsWithKeys a c = true ->
                    compareRowsWithKeys a b = true
                    \/ compareRowsWithKeys b c = true).

(** No row orders before an earlier one. *)
Definition partitionSorted (rows : list Row) : Prop :=
  StronglySorted (fun a b => compareRowsWithKeys b a = false) rows.

(** *** Reference partitioning *)

(** The number of partitions of a row sequence, by the sequential
    traversal the comment in [computePartitionStartRows] speaks of: one
    for the first row and one for every row whose keys differ from those
    of the row before it. *)
Fixpoint countChanges (prev : Row) (rest : list Row) : nat :=
  match rest with
  | [] => O
  | r :: rest' =>
      ((if keysDiffer prev r then 1 else 0) + countChanges r rest')%nat
  end.

Definition partitionCount (rows : list Row) : nat :=
  match rows with
  | [] => O
  | r :: rest => S (countChanges r rest)
  end.

(** The boundaries after [start]: each is the linear scan's answer for
    the one before, up to the row count. *)
Inductive boundaries (rows : list Row) : Z -> list Z -> Prop :=
| boundaries_end : boundaries rows (size rows) []
| boundaries_step (start : Z) (bs : list Z) :
    0 <= start < size rows ->
    boundaries rows (linearScan rows start) bs ->
    boundaries rows start (linearScan rows start :: bs).

(** The ranges between consecutive boundaries. *)
Fixpoint ranges (rows : list Row) (b : Z) (bs : list Z)
    : list (list Row) :=
  match bs with
  | [] => []
  | b' :: bs' =>
      firstn (Z.to_nat (b' - b)) (skipn (Z.to_nat b) rows)
      :: ranges rows b' bs'
  end.

(** A partitioning of rows: no partition is empty, the rows of a
    partition have the same keys, and they order before every row of the
    partitions after it. *)
Inductive partitioned : list (list Row) -> Prop :=
| partitioned_nil : partitioned []
| partitioned_cons (p : list Row) (ps : list (list Row)) :
    p <> [] ->
    (forall a b, In a p -> In b p -> keysDiffer a b = false) ->
    (forall a b, In a p -> In b (concat ps) ->
                 compareRowsWithKeys a b = true) ->
    partitioned ps ->
    partitioned (p :: ps).

(** *** What the builder expects of its collaborators *)

(** A sort returns its input reordered, with no row before an earlier one
    on the partition keys: the partition keys lead the compare flags. *)
Definition sortsByPartitionKeys (sort : list Row -> list Row) : Prop :=
  forall rows, Permutation (sort rows) rows /\ partitionSorted (sort rows).

(** The merge stream yields the rows of the runs, in order when the runs
    are. *)
Definition mergesByPartitionKeys (merge : list (list Row) -> list Row)
    : Prop :=
  forall runs,
    Permutation (merge runs) (concat runs)
    /\ (Forall partitionSorted runs -> partitionSorted (merge runs)).

(** The equality comparison of the merge mode, over the partition key
    columns, tells two rows apart exactly when the order on the
    partition keys does. *)
Definition equalityMatchesOrder (numPartitionKeys : nat) : Prop :=
  forall a b, keyColumnsDiffer a b O numPartitionKeys = keysDiffer a b.

(** The runs the spiller has written. *)
Definition spilledRuns (st : State) : list (list Row) :=
  match spiller_ st with
  | None => []
  | Some runs => runs
  end.

(** The builder while it accepts input, having been given [rows]. *)
Record Building (flags : list CompareFlags) (numPartitionKeys : nat)
    (st : State) (rows : list Row) : Prop := mkBuilding {
  building_flags : compareFlags_ st = flags;
  building_keys : numPartitionKeys_ st = numPartitionKeys;
  building_merge : merge_ st = None;
  building_sortedRows : sortedRows_ st = [];
  building_starts : partitionStartRows_ st = [];
  building_cursor : currentPartition_ st = -1;
  building_numRows : numRows_ st = size rows;
  building_rows : Permutation (concat (spilledRuns st) ++ data_ st) rows;
  building_runs : Forall partitionSorted (spilledRuns st)
}.

(** What of that holds whatever the spiller writes: the members the
    finalisation reads, and the rows of the container as long as nothing
    was spilled. *)
Record Accumulating (flags : list CompareFlags) (st : State)
    (rows : list Row) : Prop := mkAccumulating {
  accumulating_flags : compareFlags_ st = flags;
  accumulating_merge : merge_ st = None;
  accumulating_sortedRows : sortedRows_ st = [];
  accumulating_starts : partitionStartRows_ st = [];
  accumulating_cursor : currentPartition_ st = -1;
  accumulating_numRows : numRows_ st = size rows;
  accumulating_rows : spiller_ st = None -> Permutation (data_ st) rows
}.

(** The whole drain, with a budget of one round per row and one more. *)
Definition drainAll (st : State) : Result (list WindowPartition) * State :=
  drain (S (Z.to_nat (numRows_ st))) st.

(** The two failures of [nextPartition] that say there is no partition
    to hand out. *)
Definition noPartitionLeft (e : Failure) : Prop :=
  e = NoWindowPartitionsAvailable \/ e = AllWindowPartitionsConsumed.

(** *** Calls from outside *)

(** What reaches the builder while it accepts input: a batch for
    [addInput], or [spill()], which is public and which the memory
    arbitrator calls to reclaim memory.  Nothing calls [spill()] on a
    builder without a spill configuration, and the properties of calls
    say so. *)
Inductive Call :=
| CallAddInput (input : list Row)
| CallSpill.

Definition call (st : State) (c : Call) : State :=
  match c with
  | CallAddInput input => addInput st input
  | CallSpill => spill st
  end.

Definition calls (st : State) (cs : list Call) : State :=
  fold_left call cs st.

(** The rows the calls bring, in order. *)
Definition inputOf (cs : list Call) : list Row :=
  flat_map (fun c => match c with
                     | CallAddInput input => input
                     | CallSpill => []
                     end) cs.

Section SpilledStats.

(** [spiller_->stats()]: what the spiller reports of the runs it has
    written. *)
Variable SpillStats : Type.
Variable stats : list (list Row) -> SpillStats.


End SpilledStats.

(** ** Properties *)

(** *** Machine integers and vectors *)

Lemma int32_small (z : Z) : - 2 ^ 31 <= z < 2 ^ 31 -> int32 z = z.
Proof.
  intros H. unfold int32.
  rewrite Z.mod_small by lia. lia.
Qed.

Lemma u64_small (z : Z) : 0 <= z < 2 ^ 64 -> u64 z = z.
Proof. intros H. unfold u64. now rewrite Z.mod_small. Qed.

Lemma vectorAt_nth {A : Type} (v : list A) (i : Z) (d : A) :
  0 <= i < size v -> vectorAt v i = Some (nth (Z.to_nat i) v d).
Proof.
  unfold vectorAt, size. intros H.
  destruct (Z.ltb_spec i 0) as [Hneg | _]; [lia |].
  apply nth_error_nth'. lia.
Qed.

Lemma vectorAt_range {A : Type} (v : list A) (i : Z) (a : A) :
  vectorAt v i = Some a -> 0 <= i < size v.
Proof.
  unfold vectorAt, size.
  destruct (Z.ltb_spec i 0) as [Hneg | Hpos]; [discriminate |].
  intros H.
  assert (Hlt : (Z.to_nat i < length v)%nat)
    by (apply nth_error_Some; congruence).
  lia.
Qed.

(** *** The linear scan finds the next partition start *)

Lemma scanFrom_spec (first : Row) (rest : list Row) (i : Z) :
  let p := scanFrom first rest i in
  i <= p <= i + size rest
  /\ (forall k r, (k < Z.to_nat (p - i))%nat -> nth_error rest k = Some r ->
        keysDiffer first r = false)
  /\ (p < i + size rest ->
      exists r, nth_error rest (Z.to_nat (p - i)) = Some r
                /\ keysDiffer first r = true).
Proof.
  revert i. induction rest as [| r rest IH]; intros i; cbn zeta.
  - cbn [scanFrom]. unfold size; cbn [length].
    repeat split; try lia.
  - cbn [scanFrom]. unfold size in *; cbn [length].
    destruct (keysDiffer first r) eqn:Hd.
    + repeat split; try lia.
      intros _. exists r. rewrite Z.sub_diag. cbn. auto.
    + specialize (IH (i + 1)). cbn zeta in IH.
      destruct IH as (Hrange & Hsame & Hdiff).
      set (p := scanFrom first rest (i + 1)) in *.
      repeat split; try lia.
      * intros k r' Hk Hnth. destruct k as [| k].
        -- cbn in Hnth. congruence.
        -- cbn in Hnth. apply (Hsame k); [lia | exact Hnth].
      * intros Hlt. destruct Hdiff as (r' & Hnth & Hr'); [lia |].
        exists r'. split; [| exact Hr'].
        replace (Z.to_nat (p - i)) with (S (Z.to_nat (p - (i + 1)))) by lia.
        exact Hnth.
Qed.

Lemma linearScan_spec (rows : list Row) (start : Z) :
  0 <= start < size rows ->
  nextPartitionStart rows start (linearScan rows start).
Proof.
  intros Hstart. unfold linearScan, nextPartitionStart.
  assert (Hsplit : rows = firstn (Z.to_nat start) rows
                          ++ skipn (Z.to_nat start) rows)
    by (symmetry; apply firstn_skipn).
  assert (Hlen : length (firstn (Z.to_nat start) rows) = Z.to_nat start)
    by (apply firstn_length_le; unfold size in Hstart; lia).
  destruct (skipn (Z.to_nat start) rows) as [| first rest] eqn:Hskip.
  - exfalso. rewrite app_nil_r in Hsplit.
    rewrite <- Hsplit in Hlen. unfold size in Hstart. lia.
  - assert (Hsize : size rows = start + 1 + size rest).
    { unfold size. rewrite Hsplit at 1. rewrite length_app, Hlen.
      cbn [length]. lia. }
    assert (Hat : forall k, 0 <= k ->
               vectorAt rows (start + 1 + k) = nth_error rest (Z.to_nat k)).
    { intros k Hk. unfold vectorAt.
      destruct (Z.ltb_spec (start + 1 + k) 0); [lia |].
      rewrite Hsplit at 1. rewrite nth_error_app2 by lia.
      rewrite Hlen.
      replace (Z.to_nat (start + 1 + k) - Z.to_nat start)%nat
        with (S (Z.to_nat k)) by lia.
      reflexivity. }
    assert (Hfirst : vectorAt rows start = Some first).
    { unfold vectorAt. destruct (Z.ltb_spec start 0); [lia |].
      rewrite Hsplit at 1. rewrite nth_error_app2 by lia.
      rewrite Hlen, Nat.sub_diag. reflexivity. }
    pose proof (scanFrom_spec first rest (start + 1)) as Hscan.
    cbn zeta in Hscan. destruct Hscan as (Hrange & Hsame & Hdiff).
    set (p := scanFrom first rest (start + 1)) in *.
    repeat split; try lia.
    + intros j a b Hj Ha Hb.
      rewrite Hfirst in Ha. injection Ha as <-.
      replace j with (start + 1 + (j - (start + 1))) in Hb by lia.
      rewrite Hat in Hb by lia.
      apply (Hsame (Z.to_nat (j - (start + 1))) b); [lia | exact Hb].
    + intros Hlt. destruct Hdiff as (r & Hnth & Hr); [lia |].
      exists first, r. repeat split; auto.
      replace p with (start + 1 + (p - (start + 1))) by lia.
      rewrite Hat by lia. exact Hnth.
Qed.

(** *** Rows sorted by the partition keys *)

Lemma strictWeakOrder_irrefl :
  strictWeakOrder -> forall a, compareRowsWithKeys a a = false.
Proof.
  intros [Hasym _] a.
  destruct (compareRowsWithKeys a a) eqn:E; [| reflexivity].
  rewrite (Hasym a a E) in E. discriminate.
Qed.

Lemma partitionSorted_nth (rows : list Row) :
  partitionSorted rows ->
  forall i j a b, (i < j)%nat ->
    nth_error rows i = Some a -> nth_error rows j = Some b ->
    compareRowsWithKeys b a = false.
Proof.
  induction 1 as [| x rows Hs IH Hall]; intros i j a b Hij Ha Hb.
  - destruct i; discriminate.
  - destruct j as [| j]; [lia |]. cbn in Hb.
    destruct i as [| i]; cbn in Ha.
    + injection Ha as <-.
      rewrite Forall_forall in Hall. apply Hall.
      eapply nth_error_In; eauto.
    + apply (IH i j); auto. lia.
Qed.

Lemma partitionSorted_at (rows : list Row) :
  partitionSorted rows ->
  forall i j a b, i < j ->
    vectorAt rows i = Some a -> vectorAt rows j = Some b ->
    compareRowsWithKeys b a = false.
Proof.
  intros Hs i j a b Hij Ha Hb.
  pose proof (vectorAt_range _ _ _ Ha) as Hi.
  pose proof (vectorAt_range _ _ _ Hb) as Hj.
  unfold vectorAt in Ha, Hb.
  destruct (Z.ltb_spec i 0); [lia |].
  destruct (Z.ltb_spec j 0); [lia |].
  apply (partitionSorted_nth rows Hs (Z.to_nat i) (Z.to_nat j)); auto. lia.
Qed.

Lemma sorted_block (rows : list Row) (start p : Z) :
  strictWeakOrder -> partitionSorted rows -> 0 <= start ->
  nextPartitionStart rows start p ->
  blockOf rows start p.
Proof.
  intros Hswo Hsorted Hstart (Hrange & Hsame & Hdiff).
  pose proof (strictWeakOrder_irrefl Hswo) as Hirr.
  destruct Hswo as [Hasym Hcot].
  assert (Hs : exists s, vectorAt rows start = Some s).
  { destruct rows as [| r rows']; [unfold size in Hrange; cbn in *; lia |].
    eexists. apply (vectorAt_nth _ _ r). lia. }
  destruct Hs as [s Hs].
  assert (Hin : forall j b, start <= j < p -> vectorAt rows j = Some b ->
                  compareRowsWithKeys s b = false
                  /\ compareRowsWithKeys b s = false).
  { intros j b Hj Hb.
    destruct (Z.eq_dec j start) as [-> | Hne].
    - rewrite Hs in Hb. injection Hb as <-. auto.
    - apply orb_false_elim. apply (Hsame j s b); auto. lia. }
  assert (Hout : forall j b, p <= j -> vectorAt rows j = Some b ->
                   compareRowsWithKeys s b = true).
  { intros j b Hj Hb.
    pose proof (vectorAt_range _ _ _ Hb) as Hjr.
    destruct Hdiff as (s' & q & Hs' & Hq & Hsq); [lia |].
    rewrite Hs in Hs'. injection Hs' as <-.
    assert (Hlt : compareRowsWithKeys s q = true).
    { apply orb_true_iff in Hsq. destruct Hsq as [H | H]; [exact H |].
      pose proof (partitionSorted_at rows Hsorted start p s q ltac:(lia)
                    Hs Hq).
      congruence. }
    destruct (Hcot s b q Hlt) as [H | H]; [exact H |].
    destruct (Z.eq_dec j p) as [-> | Hne].
    - rewrite Hq in Hb. injection Hb as <-. rewrite Hirr in H. discriminate.
    - pose proof (partitionSorted_at rows Hsorted p j q b ltac:(lia)
                    Hq Hb).
      congruence. }
  intros i j a b Hi Hj Ha Hb.
  destruct (Z.leb_spec p j) as [Hpj | Hjp].
  - destruct (Hcot s a b (Hout j b Hpj Hb)) as [H | H]; [| exact H].
    destruct (Hin i a Hi Ha) as [H1 _]. congruence.
  - destruct (compareRowsWithKeys a b) eqn:E; [| reflexivity].
    destruct (Hcot a s b E) as [H | H].
    + destruct (Hin i a Hi Ha) as [_ H2]. congruence.
    + destruct (Hin j b ltac:(lia) Hb) as [H1 _]. congruence.
Qed.

(** *** The doubling search *)

Section Search.

Variable rows : list Row.
Variable start p : Z.
Hypothesis rows_bound : size rows <= 2 ^ 30.
Hypothesis start_range : 0 <= start.
Hypothesis block : blockOf rows start p.

Lemma probe_correct (fuel : nat) (left distance lastPosition : Z) :
  start <= left < p -> p <= lastPosition <= size rows ->
  1 <= distance < 2 ^ 31 -> left + Z.quot distance 2 < p ->
  Z.max 0 (lastPosition - left - distance) < Z.of_nat fuel ->
  exists distance' lastPosition',
    probe fuel rows left distance lastPosition
    = Some (distance', lastPosition')
    /\ distance <= distance' < 2 ^ 31
    /\ left + Z.quot distance' 2 < p
    /\ p <= lastPosition'
    /\ ((lastPosition' = left + distance'
         /\ distance' < lastPosition - left)
        \/ (lastPosition' = lastPosition
            /\ lastPosition - left <= distance')).
Proof.
  revert distance.
  induction fuel as [| fuel IH]; intros distance Hleft Hlast Hd Hhalf Hfuel;
    [lia |].
  cbn [probe].
  rewrite (u64_small distance) by lia.
  rewrite (u64_small (lastPosition - left)) by lia.
  destruct (Z.ltb_spec distance (lastPosition - left)) as [Hlt | Hge].
  - rewrite (int32_small (left + distance)) by lia.
    rewrite (u64_small (left + distance)) by lia.
    destruct rows as [| r0 rows'] eqn:Hrows;
      [unfold size in Hlast; cbn in Hlast; lia |].
    rewrite <- Hrows in *.
    rewrite (vectorAt_nth rows left r0) by lia.
    rewrite (vectorAt_nth rows (left + distance) r0) by lia.
    rewrite (block left (left + distance) _ _ ltac:(lia) ltac:(lia)
               (vectorAt_nth rows left r0 ltac:(lia))
               (vectorAt_nth rows (left + distance) r0 ltac:(lia))).
    destruct (Z.leb_spec p (left + distance)) as [Hp | Hp].
    + exists distance, (left + distance). repeat split; try lia.
    + rewrite (int32_small (distance * 2)) by lia.
      destruct (IH (distance * 2)) as (d' & lp' & Heq & Hd' & Hh' & Hp' & Hc);
        try lia.
      { rewrite Z.quot_mul by lia. lia. }
      exists d', lp'. repeat split; try lia. exact Heq.
  - exists distance, lastPosition. repeat split; try lia.
Qed.

Lemma search_correct (fuel : nat) (left lastPosition : Z) :
  start <= left < p -> p <= lastPosition <= size rows ->
  lastPosition - left <= Z.of_nat fuel ->
  search fuel rows left (int32 (left + 1)) lastPosition = Some p.
Proof.
  revert left lastPosition.
  induction fuel as [| fuel IH]; intros left lastPosition Hleft Hlast Hfuel;
    [lia |].
  cbn [search].
  rewrite (int32_small (left + 1)) by lia.
  rewrite (u64_small (left + 1)) by lia.
  destruct (Z.ltb_spec (left + 1) lastPosition) as [Hlt | Hge].
  - destruct (probe_correct (S (length rows)) left 1 lastPosition)
      as (d' & lp' & Heq & Hd' & Hh' & Hp' & Hc); try lia.
    { cbn. lia. }
    { unfold size in *. lia. }
    rewrite Heq.
    assert (Hq : 0 <= Z.quot d' 2 <= d') by
      (split; [apply Z.quot_pos; lia | apply Z.quot_le_upper_bound; lia]).
    rewrite (int32_small (left + Z.quot d' 2)) by lia.
    apply IH; try lia.
    destruct Hc as [[-> Hc] | [-> Hc]]; [lia |].
    assert (1 <= Z.quot d' 2) by (apply Z.quot_le_lower_bound; lia).
    lia.
  - f_equal. lia.
Qed.

End Search.

Lemma findNextPartitionStartRow_block (rows : list Row) (start p : Z) :
  size rows <= 2 ^ 30 -> 0 <= start < p -> p <= size rows ->
  blockOf rows start p ->
  findNextPartitionStartRow rows start = Some p.
Proof.
  intros Hbound Hstart Hp Hblock. unfold findNextPartitionStartRow.
  rewrite (u64_small (size rows)) by (unfold size in *; lia).
  apply (search_correct rows start p); auto; try lia.
  unfold size in *. lia.
Qed.

Lemma findNextPartitionStartRow_scan (rows : list Row) (start : Z) :
  strictWeakOrder -> partitionSorted rows ->
  size rows <= 2 ^ 30 -> 0 <= start < size rows ->
  findNextPartitionStartRow rows start = Some (linearScan rows start).
Proof.
  intros Hswo Hsorted Hbound Hstart.
  pose proof (linearScan_spec rows start Hstart) as Hspec.
  pose proof (sorted_block rows start _ Hswo Hsorted ltac:(lia) Hspec)
    as Hblock.
  destruct Hspec as (Hrange & _).
  apply findNextPartitionStartRow_block; auto; lia.
Qed.

(** *** The search over a partition of more than 2^30 rows

    [distance] is an [int].  Doubled from 2^30 it wraps to -2^31, which
    the comparison with [lastPosition - left], made in [size_t], reads as
    a value above every row count: the inner loop is left without a
    key change found, [left] moves back by 2^30 and the search returns
    [right = 1 - 2^30]. *)

Lemma u64_negative (z : Z) : - 2 ^ 64 <= z < 0 -> u64 z = z + 2 ^ 64.
Proof.
  intros H. unfold u64.
  rewrite <- (Z_mod_plus_full z 1 (2 ^ 64)).
  rewrite Z.mod_small by lia. lia.
Qed.

Section SearchOverflow.

Variable rows : list Row.
Hypothesis rows_size : 2 ^ 30 < size rows < 2 ^ 31.
Hypothesis one_partition :
  forall a b, In a rows -> In b rows -> compareRowsWithKeys a b = false.

Lemma probe_same_keys (fuel : nat) (distance : Z) :
  1 <= distance <= 2 ^ 30 ->
  probe (S fuel) rows 0 distance (size rows)
  = probe fuel rows 0 (int32 (distance * 2)) (size rows).
Proof.
  intros Hd. cbn [probe].
  rewrite (u64_small distance) by lia.
  rewrite Z.sub_0_r, (u64_small (size rows)) by lia.
  destruct (Z.ltb_spec distance (size rows)) as [_ | Hge]; [| lia].
  rewrite Z.add_0_l, (int32_small distance) by lia.
  rewrite (vectorAt_nth rows 0 nullRow) by lia.
  rewrite (vectorAt_nth rows distance nullRow) by lia.
  rewrite one_partition; [reflexivity | |];
    apply nth_In; unfold size in *; lia.
Qed.

Lemma probe_wraps (m : nat) :
  forall (k fuel : nat),
    (k + m = 30)%nat -> (m + 2 <= fuel)%nat ->
    probe fuel rows 0 (2 ^ Z.of_nat k) (size rows)
    = Some (- 2 ^ 31, size rows).
Proof.
  induction m as [| m IH]; intros k fuel Hk Hfuel;
    (destruct fuel as [| fuel]; [lia |]).
  - replace k with 30%nat by lia.
    change (2 ^ Z.of_nat 30) with (2 ^ 30).
    rewrite probe_same_keys by lia.
    change (int32 (2 ^ 30 * 2)) with (- 2 ^ 31).
    destruct fuel as [| fuel]; [lia |]. cbn [probe].
    rewrite u64_negative by lia.
    rewrite Z.sub_0_r, (u64_small (size rows)) by lia.
    destruct (Z.ltb_spec (- 2 ^ 31 + 2 ^ 64) (size rows)) as [Hlt | _];
      [lia | reflexivity].
  - assert (Hpow : 1 <= 2 ^ Z.of_nat k <= 2 ^ 29).
    { split.
      - pose proof (Z.pow_pos_nonneg 2 (Z.of_nat k)). lia.
      - apply Z.pow_le_mono_r; lia. }
    rewrite probe_same_keys by lia.
    rewrite int32_small by lia.
    replace (2 ^ Z.of_nat k * 2) with (2 ^ Z.of_nat (S k))
      by (rewrite Nat2Z.inj_succ, Z.pow_succ_r; lia).
    apply IH; lia.
Qed.

Lemma findNextPartitionStartRow_wraps :
  findNextPartitionStartRow rows 0 = Some (1 - 2 ^ 30).
Proof.
  unfold findNextPartitionStartRow.
  rewrite (u64_small (size rows)) by lia.
  change (int32 (0 + 1)) with 1.
  cbn [search]. change (u64 1) with 1.
  destruct (Z.ltb_spec 1 (size rows)) as [_ | Hge]; [| lia].
  change 1 with (2 ^ Z.of_nat 0) at 1.
  rewrite (probe_wraps 30 0) by (unfold size in *; lia).
  change (int32 (0 + Z.quot (- 2 ^ 31) 2)) with (- 2 ^ 30).
  change (int32 (- 2 ^ 30 + 1)) with (1 - 2 ^ 30).
  destruct (length rows) as [| n] eqn:Hlen;
    [unfold size in *; lia |].
  cbn [search].
  rewrite u64_negative by lia.
  destruct (Z.ltb_spec (1 - 2 ^ 30 + 2 ^ 64) (size rows)) as [Hlt | _];
    [lia | reflexivity].
Qed.

Lemma linearScan_one_partition : linearScan rows 0 = size rows.
Proof.
  destruct (linearScan_spec rows 0 ltac:(lia)) as (Hrange & _ & Hend).
  destruct (Z.eq_dec (linearScan rows 0) (size rows)) as [Heq | Hne];
    [exact Heq | exfalso].
  destruct Hend as (a & b & Ha & Hb & Hdiff); [lia |].
  unfold vectorAt in Ha, Hb.
  destruct (0 <? 0); [discriminate |].
  destruct (linearScan rows 0 <? 0); [discriminate |].
  apply nth_error_In in Ha, Hb.
  unfold keysDiffer in Hdiff.
  rewrite !one_partition in Hdiff by assumption. discriminate.
Qed.

Lemma boundaryLoop_wraps :
  boundaryLoop (S (length rows)) rows 0 [0] = Ok [0; 1 - 2 ^ 30].
Proof.
  cbn [boundaryLoop]. change (u64 0) with 0.
  destruct (Z.ltb_spec 0 (size rows)) as [_ | Hge]; [| lia].
  rewrite findNextPartitionStartRow_wraps.
  destruct (length rows) as [| n] eqn:Hlen;
    [unfold size in *; lia |].
  cbn [boundaryLoop].
  rewrite u64_negative by lia.
  destruct (Z.ltb_spec (1 - 2 ^ 30 + 2 ^ 64) (size rows)) as [Hlt | _];
    [lia | reflexivity].
Qed.

End SearchOverflow.

(** *** The boundary list *)

Lemma boundaryLoop_boundaries (rows : list Row) :
  strictWeakOrder -> partitionSorted rows -> size rows <= 2 ^ 30 ->
  forall fuel start acc,
    0 <= start <= size rows -> size rows - start < Z.of_nat fuel ->
    exists bs, boundaryLoop fuel rows start acc = Ok (acc ++ bs)
               /\ boundaries rows start bs.
Proof.
  intros Hswo Hsorted Hbound.
  induction fuel as [| fuel IH]; intros start acc Hstart Hfuel; [lia |].
  cbn [boundaryLoop].
  rewrite (u64_small start) by (unfold size in *; lia).
  destruct (Z.ltb_spec start (size rows)) as [Hlt | Hge].
  - rewrite findNextPartitionStartRow_scan by (auto; lia).
    destruct (linearScan_spec rows start ltac:(lia)) as (Hrange & _).
    destruct (IH (linearScan rows start) (acc ++ [linearScan rows start]))
      as (bs & Heq & Hbs); try lia.
    exists (linearScan rows start :: bs). split.
    + rewrite Heq, <- app_assoc. reflexivity.
    + constructor; [lia | exact Hbs].
  - exists []. rewrite app_nil_r. split; [reflexivity |].
    replace start with (size rows) by lia. constructor.
Qed.

Lemma boundaries_increasing (rows : list Row) (start : Z) (bs : list Z) :
  boundaries rows start bs ->
  StronglySorted Z.lt (start :: bs)
  /\ last (start :: bs) 0 = size rows
  /\ Forall (fun b => start <= b <= size rows) (start :: bs).
Proof.
  induction 1 as [| start bs Hstart Hbs (Hsorted & Hlast & Hall)].
  - repeat split.
    + repeat constructor.
    + repeat constructor; lia.
  - destruct (linearScan_spec rows start Hstart) as (Hrange & _).
    set (p := linearScan rows start) in *.
    assert (Hall' : Forall (fun b => start < b <= size rows) (p :: bs)).
    { eapply Forall_impl; [| exact Hall]. cbn. intros b Hb. lia. }
    repeat split.
    + constructor; [exact Hsorted |].
      eapply Forall_impl; [| exact Hall']. cbn. intros b Hb. lia.
    + exact Hlast.
    + constructor; [lia |].
      eapply Forall_impl; [| exact Hall']. cbn. intros b Hb. lia.
Qed.

(** Rows with the same keys differ from the same rows. *)
Lemma keysDiffer_congruent :
  strictWeakOrder ->
  forall a b c, keysDiffer a b = false -> keysDiffer a c = keysDiffer b c.
Proof.
  intros [Hasym Hcot] a b c Hab.
  apply orb_false_elim in Hab. destruct Hab as [Hab Hba].
  unfold keysDiffer.
  destruct (compareRowsWithKeys a c) eqn:Hac.
  - destruct (Hcot a b c Hac) as [H | H]; [congruence |].
    rewrite H. reflexivity.
  - destruct (compareRowsWithKeys c a) eqn:Hca.
    + destruct (Hcot c b a Hca) as [H | H]; [| congruence].
      rewrite H. cbn. now rewrite orb_true_r.
    + cbn. symmetry. apply orb_false_intro.
      * destruct (compareRowsWithKeys b c) eqn:Hbc; [| reflexivity].
        destruct (Hcot b a c Hbc); congruence.
      * destruct (compareRowsWithKeys c b) eqn:Hcb; [| reflexivity].
        destruct (Hcot c a b Hcb); congruence.
Qed.

Lemma keysDiffer_refl :
  strictWeakOrder -> forall a, keysDiffer a a = false.
Proof.
  intros Hswo a. unfold keysDiffer.
  now rewrite (strictWeakOrder_irrefl Hswo).
Qed.

Lemma countChanges_scan :
  strictWeakOrder ->
  forall rest prev first i,
    keysDiffer first prev = false ->
    countChanges prev rest
    = partitionCount (skipn (Z.to_nat (scanFrom first rest i - i)) rest).
Proof.
  intros Hswo.
  induction rest as [| r rest IH]; intros prev first i Hprev.
  - cbn. now rewrite skipn_nil.
  - cbn [scanFrom countChanges].
    rewrite <- (keysDiffer_congruent Hswo first prev r Hprev).
    destruct (keysDiffer first r) eqn:Hd.
    + rewrite Z.sub_diag. reflexivity.
    + destruct (scanFrom_spec first rest (i + 1)) as (Hrange & _).
      replace (Z.to_nat (scanFrom first rest (i + 1) - i))
        with (S (Z.to_nat (scanFrom first rest (i + 1) - (i + 1))))
        by lia.
      cbn [skipn Nat.add]. apply IH. exact Hd.
Qed.

Lemma boundaries_count (rows : list Row) (start : Z) (bs : list Z) :
  strictWeakOrder ->
  boundaries rows start bs ->
  length bs = partitionCount (skipn (Z.to_nat start) rows).
Proof.
  intros Hswo.
  induction 1 as [| start bs Hstart Hbs IH].
  - unfold size. rewrite Nat2Z.id, skipn_all. reflexivity.
  - cbn [length]. rewrite IH. unfold linearScan.
    destruct (skipn (Z.to_nat start) rows) as [| first rest] eqn:Hskip.
    + exfalso.
      assert (Hl : length (skipn (Z.to_nat start) rows) = O)
        by now rewrite Hskip.
      rewrite length_skipn in Hl. unfold size in Hstart. lia.
    + cbn [partitionCount]. f_equal.
      rewrite (countChanges_scan Hswo rest first first (start + 1))
        by apply (keysDiffer_refl Hswo).
      destruct (scanFrom_spec first rest (start + 1)) as (Hrange & _).
      set (p := scanFrom first rest (start + 1)) in *.
      f_equal.
      replace (Z.to_nat p)
        with (Z.to_nat (p - (start + 1)) + S (Z.to_nat start))%nat by lia.
      rewrite <- skipn_skipn.
      replace (S (Z.to_nat start)) with (1 + Z.to_nat start)%nat by lia.
      rewrite <- (skipn_skipn 1 (Z.to_nat start)), Hskip.
      reflexivity.
Qed.

(** *** The builder while it accepts input *)

Lemma int32_u64 (z : Z) : - 2 ^ 31 <= z < 2 ^ 31 -> int32 (u64 z) = z.
Proof.
  intros H. unfold int32, u64.
  rewrite (Z.mod_eq z (2 ^ 64)) by lia.
  replace (z - 2 ^ 64 * (z / 2 ^ 64) + 2 ^ 31)
    with (z + 2 ^ 31 + (- (z / 2 ^ 64) * 2 ^ 32) * 2 ^ 32) by lia.
  rewrite Z_mod_plus_full.
  rewrite Z.mod_small by lia. lia.
Qed.

Lemma spill_eq (st : State) :
  spill st
  = with_pool
      (with_data
         (with_spiller st
            (Some (spilledRuns st
                   ++ [spillRun (compareFlags_ st) (data_ st)])))
         [])
      (release (pool_ st)).
Proof.
  unfold spill, setupSpiller, spilledRuns.
  destruct (spiller_ st) eqn:E; cbn; rewrite ?E; reflexivity.
Qed.

Lemma storeRows (st : State) (input : list Row) :
  fold_left (fun s row => with_data s (data_ s ++ [row])) input st
  = with_data st (data_ st ++ input).
Proof.
  revert st. induction input as [| row input IH]; intros st; cbn [fold_left].
  - rewrite app_nil_r. now destruct st.
  - rewrite IH. unfold with_data at 1 3. cbn.
    now rewrite <- app_assoc.
Qed.

(** *** Draining the boundary list *)

Lemma vectorAt_app {A : Type} (pre post : list A) (x : A) :
  vectorAt (pre ++ x :: post) (size pre) = Some x.
Proof.
  unfold vectorAt, size. destruct (Z.ltb_spec (Z.of_nat (length pre)) 0);
    [lia |].
  rewrite Nat2Z.id, nth_error_app2, Nat.sub_diag by lia. reflexivity.
Qed.

Lemma isEmpty_app {A : Type} (pre post : list A) (x : A) :
  isEmpty (pre ++ x :: post) = false.
Proof. now destruct pre. Qed.

Lemma size_app {A : Type} (l1 l2 : list A) :
  size (l1 ++ l2) = size l1 + size l2.
Proof. unfold size. rewrite length_app. lia. Qed.

Lemma size_cons {A : Type} (x : A) (l : list A) : size (x :: l) = 1 + size l.
Proof. unfold size. cbn [length]. lia. Qed.

Lemma size_nonneg {A : Type} (l : list A) : 0 <= size l.
Proof. unfold size. lia. Qed.

Lemma drain_memory (post : list Z) :
  forall fuel st pre b,
    merge_ st = None ->
    partitionStartRows_ st = pre ++ b :: post ->
    currentPartition_ st = size pre - 1 ->
    size (pre ++ b :: post) < 2 ^ 31 ->
    Forall (fun x => 0 <= x <= 2 ^ 30) (b :: post) ->
    (length post < fuel)%nat ->
    exists st',
      drain fuel st = (Ok (ranges (sortedRows_ st) b post), st')
      /\ merge_ st' = None
      /\ partitionStartRows_ st' = partitionStartRows_ st
      /\ currentPartition_ st' = size (partitionStartRows_ st) - 2.
Proof.
  induction post as [| b' post IH];
    intros fuel st pre b Hm Hstarts Hc Hsize Hall Hfuel;
    (destruct fuel as [| fuel]; [cbn in Hfuel; lia |]);
    cbn [drain]; unfold hasNextPartition; rewrite Hm, Hstarts, Hc;
    rewrite !size_app, !size_cons in *;
    pose proof (size_nonneg pre) as Hpre.
  - change (size (@nil Z)) with 0 in *.
    rewrite int32_u64 by lia.
    destruct (Z.ltb_spec 0 (size pre + (1 + 0))); [| lia].
    destruct (Z.ltb_spec (size pre - 1) (size pre + (1 + 0) - 2)); [lia |].
    cbn [andb ranges]. exists st. repeat split; auto. lia.
  - pose proof (size_nonneg post) as Hpost.
    rewrite int32_u64 by lia.
    destruct (Z.ltb_spec 0 (size pre + (1 + (1 + size post)))); [| lia].
    destruct (Z.ltb_spec (size pre - 1)
                (size pre + (1 + (1 + size post)) - 2)); [| lia].
    cbn [andb]. unfold nextPartition. rewrite Hm, Hstarts, isEmpty_app.
    cbn [currentPartition_ with_currentPartition partitionStartRows_
         sortedRows_].
    rewrite Hc, Hstarts, !size_app, !size_cons.
    replace (size pre - 1 + 1) with (size pre) by lia.
    rewrite (int32_small (size pre)) by lia.
    rewrite (u64_small (size pre)) by lia.
    rewrite (u64_small (size pre + (1 + (1 + size post)) - 2)) by lia.
    destruct (Z.leb_spec (size pre) (size pre + (1 + (1 + size post)) - 2));
      [| lia].
    rewrite (int32_small (size pre + 1)) by lia.
    rewrite vectorAt_app.
    replace (pre ++ b :: b' :: post) with ((pre ++ [b]) ++ b' :: post)
      by now rewrite <- app_assoc.
    replace (size pre + 1) with (size (pre ++ [b]))
      by (rewrite size_app, size_cons; reflexivity).
    rewrite vectorAt_app.
    inversion Hall as [| ? ? Hb Hall']; subst.
    inversion Hall' as [| ? ? Hb' _]; subst.
    rewrite (int32_small (b' - b)) by lia.
    match goal with |- context [drain fuel ?s] => set (st1 := s) end.
    destruct (IH fuel st1 (pre ++ [b]) b') as (st' & Hdrain & Hm' & Hs' & Hc').
    + exact Hm.
    + subst st1. cbn. rewrite Hstarts, <- app_assoc. reflexivity.
    + subst st1. cbn. rewrite size_app, size_cons.
      change (size (@nil Z)) with 0. lia.
    + rewrite !size_app, !size_cons. change (size (@nil Z)) with 0. lia.
    + exact Hall'.
    + cbn in Hfuel. lia.
    + rewrite Hdrain. cbn [ranges]. exists st'.
      subst st1.
      cbn [partitionStartRows_ with_currentPartition] in Hs', Hc'.
      split; [reflexivity |]. split; [exact Hm' |].
      split; [now rewrite Hs', Hstarts, <- app_assoc |].
      rewrite Hc', Hstarts, !size_app, !size_cons. lia.
Qed.

(** *** The test hook and the spiller *)

Ltac guard_cases :=
  repeat match goal with
         | |- context [match ?x with _ => _ end] => destruct x eqn:?
         end.

Lemma ensureInputFits_frame (st : State) (input : list Row) :
  spillConfig_ (ensureInputFits st input) = spillConfig_ st
  /\ testingSpill_ (ensureInputFits st input) = testingSpill_ st.
Proof.
  unfold ensureInputFits, testingTriggerSpill. rewrite ?spill_eq.
  guard_cases; cbn; auto.
Qed.

Lemma addInput_frame (st : State) (input : list Row) :
  spillConfig_ (addInput st input) = spillConfig_ st
  /\ testingSpill_ (addInput st input) = testingSpill_ st.
Proof.
  unfold addInput. rewrite storeRows. cbn.
  apply ensureInputFits_frame.
Qed.

Lemma addInputs_frame (batches : list (list Row)) :
  forall st,
    spillConfig_ (addInputs st batches) = spillConfig_ st
    /\ testingSpill_ (addInputs st batches) = testingSpill_ st.
Proof.
  unfold addInputs.
  induction batches as [| input batches IH]; intros st; cbn [fold_left];
    [auto |].
  destruct (IH (addInput st input)) as [-> ->].
  apply addInput_frame.
Qed.

Lemma addInput_no_spill (st : State) (input : list Row) :
  (forall k, testingSpill_ st k = false) ->
  spiller_ (addInput st input) = spiller_ st.
Proof.
  intros Hhook. unfold addInput. rewrite storeRows. cbn.
  unfold ensureInputFits, testingTriggerSpill. rewrite Hhook.
  guard_cases; cbn; auto.
Qed.

Lemma addInputs_no_spill (batches : list (list Row)) :
  forall st,
    (forall k, testingSpill_ st k = false) ->
    spiller_ (addInputs st batches) = spiller_ st.
Proof.
  unfold addInputs.
  induction batches as [| input batches IH]; intros st Hhook;
    cbn [fold_left]; [auto |].
  rewrite IH.
  - now apply addInput_no_spill.
  - destruct (addInput_frame st input) as [_ ->]. exact Hhook.
Qed.

Lemma ensureSortFits_no_spill (st : State) :
  (forall k, testingSpill_ st k = false) ->
  spiller_ (ensureSortFits st) = spiller_ st.
Proof.
  intros Hhook. unfold ensureSortFits, testingTriggerSpill. rewrite Hhook.
  guard_cases; cbn in *; auto.
Qed.

Lemma ensureSortFits_forced (st : State) (cfg : SpillConfig) :
  spillConfig_ st = Some cfg ->
  (forall k, testingSpill_ st k = true) ->
  spiller_ (ensureSortFits st) <> None.
Proof.
  intros Hcfg Hhook. unfold ensureSortFits, testingTriggerSpill.
  rewrite Hcfg, Hhook. cbn. discriminate.
Qed.

Lemma size_concat (batches : list (list Row)) :
  size (concat batches) = fold_right Z.add 0 (map size batches).
Proof.
  induction batches as [| b batches IH]; cbn [concat map fold_right];
    [reflexivity |].
  now rewrite size_app, IH.
Qed.

Lemma ranges_length (rows : list Row) (bs : list Z) :
  forall b, length (ranges rows b bs) = length bs.
Proof. induction bs as [| b' bs IH]; intros b; cbn; auto. Qed.

(** *** The builder while it accepts input, whatever the spiller does *)

Lemma Accumulating_construct (cfg : option SpillConfig)
    (numPartitionKeys : nat) (sortingOrders : list SortOrder) (pool : Pool)
    (hook : nat -> bool) :
  Accumulating (makeCompareFlags numPartitionKeys sortingOrders)
    (construct cfg numPartitionKeys sortingOrders pool hook) [].
Proof. constructor; cbn; auto. Qed.

Lemma Accumulating_spill (flags : list CompareFlags) (st : State)
    (rows : list Row) :
  Accumulating flags st rows -> Accumulating flags (spill st) rows.
Proof.
  intros [Hf Hm Hs Hp Hc Hn Hrows]. rewrite spill_eq.
  constructor; cbn; auto. discriminate.
Qed.

Lemma Accumulating_frame (flags : list CompareFlags) (st st' : State)
    (rows : list Row) :
  Accumulating flags st rows ->
  compareFlags_ st' = compareFlags_ st ->
  merge_ st' = merge_ st -> sortedRows_ st' = sortedRows_ st ->
  partitionStartRows_ st' = partitionStartRows_ st ->
  currentPartition_ st' = currentPartition_ st ->
  numRows_ st' = numRows_ st -> spiller_ st' = spiller_ st ->
  data_ st' = data_ st ->
  Accumulating flags st' rows.
Proof.
  intros [Hf Hm Hs Hp Hc Hn Hrows] E1 E2 E3 E4 E5 E6 E7 E8.
  constructor; try congruence.
  rewrite E7, E8. exact Hrows.
Qed.

Lemma Accumulating_ensureInputFits (flags : list CompareFlags)
    (st : State) (rows input : list Row) :
  Accumulating flags st rows ->
  Accumulating flags (ensureInputFits st input) rows.
Proof.
  intros HA. unfold ensureInputFits.
  destruct (spillConfig_ st) as [cfg |]; [| exact HA].
  destruct (size (data_ st) =? 0); [exact HA |].
  unfold testingTriggerSpill.
  destruct (testingSpill_ st (spillChecks_ st)).
  - apply Accumulating_spill.
    eapply Accumulating_frame; [exact HA | ..]; reflexivity.
  - match goal with |- context [if ?c then _ else _] => destruct c end.
    + eapply Accumulating_frame; [exact HA | ..]; reflexivity.
    + match goal with |- context [maybeReserve ?a ?b ?c] =>
        destruct (maybeReserve a b c) as [reserved pool'] end.
      destruct reserved;
        (eapply Accumulating_frame; [exact HA | ..]; reflexivity).
Qed.

Lemma Accumulating_ensureSortFits (flags : list CompareFlags)
    (st : State) (rows : list Row) :
  Accumulating flags st rows -> Accumulating flags (ensureSortFits st) rows.
Proof.
  intros HA. unfold ensureSortFits.
  destruct (spillConfig_ st) as [cfg |]; [| exact HA].
  unfold testingTriggerSpill.
  destruct (testingSpill_ st (spillChecks_ st)).
  - apply Accumulating_spill.
    eapply Accumulating_frame; [exact HA | ..]; reflexivity.
  - cbn [spiller_ with_spillChecks].
    destruct (spiller_ st) as [runs |] eqn:Hsp.
    + eapply Accumulating_frame; [exact HA | ..]; reflexivity.
    + match goal with |- context [maybeReserve ?a ?b ?c] =>
        destruct (maybeReserve a b c) as [reserved pool'] end.
      destruct reserved;
        (eapply Accumulating_frame; [exact HA | ..]; reflexivity).
Qed.

Lemma Accumulating_addInput (flags : list CompareFlags) (st : State)
    (rows input : list Row) :
  Accumulating flags st rows -> size (rows ++ input) < 2 ^ 31 ->
  Accumulating flags (addInput st input) (rows ++ input).
Proof.
  intros HA Hsize. unfold addInput. rewrite storeRows.
  pose proof (Accumulating_ensureInputFits flags st rows input HA)
    as [Hf Hm Hs Hp Hc Hn Hrows].
  set (st1 := ensureInputFits st input) in *.
  constructor; cbn; auto.
  - rewrite Hn. unfold size in *. rewrite length_app in *.
    rewrite int32_small; lia.
  - intros Hsp. apply Permutation_app_tail. now apply Hrows.
Qed.

Lemma Accumulating_addInputs (flags : list CompareFlags)
    (batches : list (list Row)) :
  forall (st : State) (rows : list Row),
    Accumulating flags st rows ->
    size (rows ++ concat batches) < 2 ^ 31 ->
    Accumulating flags (addInputs st batches) (rows ++ concat batches).
Proof.
  unfold addInputs.
  induction batches as [| input batches IH]; intros st rows HA Hsize;
    cbn [fold_left concat].
  - now rewrite app_nil_r.
  - cbn [concat] in Hsize. rewrite app_assoc in *.
    apply IH; [| exact Hsize].
    apply Accumulating_addInput; [exact HA |].
    unfold size in *. rewrite !length_app in *. lia.
Qed.

(** With a spiller, the finalisation opens the merge stream. *)
Lemma noMoreInput_opens_merge (flags : list CompareFlags) (st : State)
    (rows : list Row) (runs : list (list Row)) :
  Accumulating flags st rows -> numRows_ st <> 0 ->
  spiller_ (ensureSortFits st) = Some runs ->
  exists st', noMoreInput st = Ok st' /\ spiller_ st' <> None
              /\ merge_ st' <> None.
Proof.
  intros HA Hrows Hsp. unfold noMoreInput.
  destruct (Z.eqb_spec (numRows_ st) 0); [contradiction |].
  rewrite Hsp.
  pose proof (Accumulating_spill flags _ rows
                (Accumulating_ensureSortFits flags st rows HA)) as HA'.
  rewrite (accumulating_merge _ _ _ HA'). unfold finishSpill.
  eexists. split; [reflexivity |]. cbn. split; discriminate.
Qed.

Section Runs.

Variable flags : list CompareFlags.
Variable numPartitionKeys : nat.
Hypothesis order : strictWeakOrder.
Hypothesis sorter : sortsByPartitionKeys (prefixSort flags).
Hypothesis spiller : sortsByPartitionKeys (spillRun flags).
Hypothesis reader : mergesByPartitionKeys (createOrderedReader flags).
Hypothesis equalityFlags : equalityMatchesOrder numPartitionKeys.

Lemma Building_construct (cfg : option SpillConfig)
    (sortingOrders : list SortOrder) (pool : Pool) (hook : nat -> bool) :
  flags = makeCompareFlags numPartitionKeys sortingOrders ->
  Building flags numPartitionKeys
    (construct cfg numPartitionKeys sortingOrders pool hook) [].
Proof.
  intros ->. constructor; cbn; auto.
Qed.

Lemma Building_spill (st : State) (rows : list Row) :
  Building flags numPartitionKeys st rows ->
  Building flags numPartitionKeys (spill st) rows.
Proof.
  intros [Hf Hk Hm Hs Hp Hc Hn Hrows Hruns].
  destruct (spiller (data_ st)) as [Hperm Hsorted]. rewrite spill_eq.
  constructor; cbn; auto.
  - rewrite concat_app. cbn [concat].
    rewrite !app_nil_r, Hf.
    etransitivity; [| exact Hrows].
    apply Permutation_app_head. exact Hperm.
  - apply Forall_app. split; [exact Hruns |].
    constructor; [| constructor]. rewrite Hf. exact Hsorted.
Qed.

Lemma Building_frame (st st' : State) (rows : list Row) :
  Building flags numPartitionKeys st rows ->
  compareFlags_ st' = compareFlags_ st ->
  numPartitionKeys_ st' = numPartitionKeys_ st ->
  merge_ st' = merge_ st -> sortedRows_ st' = sortedRows_ st ->
  partitionStartRows_ st' = partitionStartRows_ st ->
  currentPartition_ st' = currentPartition_ st ->
  numRows_ st' = numRows_ st -> spiller_ st' = spiller_ st ->
  data_ st' = data_ st ->
  Building flags numPartitionKeys st' rows.
Proof.
  intros [Hf Hk Hm Hs Hp Hc Hn Hrows Hruns] E1 E2 E3 E4 E5 E6 E7 E8 E9.
  constructor; unfold spilledRuns in *; try congruence.
  - rewrite E8, E9. exact Hrows.
  - rewrite E8. exact Hruns.
Qed.

Lemma Building_ensureInputFits (st : State) (rows input : list Row) :
  Building flags numPartitionKeys st rows ->
  Building flags numPartitionKeys (ensureInputFits st input) rows.
Proof.
  intros HB. unfold ensureInputFits.
  destruct (spillConfig_ st) as [cfg |]; [| exact HB].
  destruct (size (data_ st) =? 0); [exact HB |].
  unfold testingTriggerSpill.
  destruct (testingSpill_ st (spillChecks_ st)).
  - apply Building_spill. eapply Building_frame; [exact HB | ..]; reflexivity.
  - match goal with |- context [if ?c then _ else _] => destruct c end.
    + eapply Building_frame; [exact HB | ..]; reflexivity.
    + match goal with |- context [maybeReserve ?a ?b ?c] =>
        destruct (maybeReserve a b c) as [reserved pool'] end.
      destruct reserved;
        (eapply Building_frame; [exact HB | ..]; reflexivity).
Qed.

Lemma Building_ensureSortFits (st : State) (rows : list Row) :
  Building flags numPartitionKeys st rows ->
  Building flags numPartitionKeys (ensureSortFits st) rows.
Proof.
  intros HB. unfold ensureSortFits.
  destruct (spillConfig_ st) as [cfg |]; [| exact HB].
  unfold testingTriggerSpill.
  destruct (testingSpill_ st (spillChecks_ st)).
  - apply Building_spill. eapply Building_frame; [exact HB | ..]; reflexivity.
  - cbn [spiller_ with_spillChecks].
    destruct (spiller_ st) as [runs |] eqn:Hsp.
    + eapply Building_frame; [exact HB | ..]; reflexivity.
    + match goal with |- context [maybeReserve ?a ?b ?c] =>
        destruct (maybeReserve a b c) as [reserved pool'] end.
      destruct reserved;
        (eapply Building_frame; [exact HB | ..]; reflexivity).
Qed.

Lemma Building_addInput (st : State) (rows input : list Row) :
  Building flags numPartitionKeys st rows -> size (rows ++ input) < 2 ^ 31 ->
  Building flags numPartitionKeys (addInput st input) (rows ++ input).
Proof.
  intros HB Hsize. unfold addInput. rewrite storeRows.
  pose proof (Building_ensureInputFits st rows input HB)
    as [Hf Hk Hm Hs Hp Hc Hn Hrows Hruns].
  set (st1 := ensureInputFits st input) in *.
  constructor; cbn; auto.
  - rewrite Hn. unfold size in *. rewrite length_app in *.
    rewrite int32_small; lia.
  - fold (spilledRuns st1). rewrite app_assoc.
    apply Permutation_app_tail. exact Hrows.
Qed.

Lemma Building_addInputs (batches : list (list Row)) :
  forall (st : State) (rows : list Row),
    Building flags numPartitionKeys st rows ->
    size (rows ++ concat batches) < 2 ^ 31 ->
    Building flags numPartitionKeys (addInputs st batches)
      (rows ++ concat batches).
Proof.
  unfold addInputs.
  induction batches as [| input batches IH]; intros st rows HB Hsize;
    cbn [fold_left concat].
  - now rewrite app_nil_r.
  - cbn [concat] in Hsize. rewrite app_assoc in *.
    apply IH; [| exact Hsize].
    apply Building_addInput; [exact HB |].
    unfold size in *. rewrite !length_app in *. lia.
Qed.

(** *** A row sequence has one partitioning *)

Lemma Permutation_filter (f : Row -> bool) (l l' : list Row) :
  Permutation l l' -> Permutation (filter f l) (filter f l').
Proof.
  induction 1 as [| x l l' _ IH | x y l | l l' l'' _ IH1 _ IH2]; cbn.
  - constructor.
  - destruct (f x); [constructor |]; exact IH.
  - destruct (f x), (f y); try reflexivity. constructor.
  - etransitivity; eauto.
Qed.

Lemma filter_all (f : Row -> bool) (l : list Row) :
  (forall x, In x l -> f x = true) -> filter f l = l.
Proof.
  induction l as [| x l IH]; intros H; cbn; [reflexivity |].
  rewrite (H x (or_introl eq_refl)). f_equal.
  apply IH. intros y Hy. apply H. now right.
Qed.

Lemma filter_none (f : Row -> bool) (l : list Row) :
  (forall x, In x l -> f x = false) -> filter f l = [].
Proof.
  induction l as [| x l IH]; intros H; cbn; [reflexivity |].
  rewrite (H x (or_introl eq_refl)).
  apply IH. intros y Hy. apply H. now right.
Qed.

(** The first partition is the rows with the keys of any of its rows. *)
Lemma partitioned_first (a : Row) (p : list Row) (ps : list (list Row)) :
  partitioned (p :: ps) -> In a p ->
  filter (fun x => negb (keysDiffer a x)) (concat (p :: ps)) = p.
Proof.
  intros Hp Ha. inversion Hp as [| p' ps' Hne Hsame Hbefore Hrest]; subst.
  cbn [concat]. rewrite filter_app.
  rewrite filter_all, filter_none.
  - apply app_nil_r.
  - intros x Hx. unfold keysDiffer.
    now rewrite (Hbefore a x Ha Hx).
  - intros x Hx. now rewrite (Hsame a x Ha Hx).
Qed.

Lemma partitioned_unique (ps : list (list Row)) :
  partitioned ps ->
  forall qs, partitioned qs ->
    Permutation (concat ps) (concat qs) ->
    Forall2 (@Permutation Row) ps qs.
Proof.
  induction 1 as [| p ps Hne Hsame Hbefore Hps IH];
    intros qs Hqs Hperm.
  - destruct Hqs as [| q qs Hq _ _ _]; [constructor |].
    cbn in Hperm. apply Permutation_nil in Hperm.
    destruct q; [congruence | discriminate].
  - destruct Hqs as [| q qs Hq Hsame' Hbefore' Hqs].
    + cbn in Hperm. apply Permutation_sym, Permutation_nil in Hperm.
      destruct p; [congruence | discriminate].
    + destruct p as [| a p']; [congruence |].
      assert (Ha : In a (a :: p')) by now left.
      assert (Haq : In a q).
      { assert (Hin : In a (concat (q :: qs))).
        { eapply Permutation_in; [exact Hperm |].
          cbn [concat]. apply in_or_app. now left. }
        cbn [concat] in Hin.
        apply in_app_or in Hin. destruct Hin as [Hin | Hin]; [exact Hin |].
        exfalso.
        destruct q as [| b q']; [congruence |].
        assert (Hb : In b (b :: q')) by now left.
        pose proof (Hbefore' b a Hb Hin) as Hba.
        assert (Hin' : In b (concat ((a :: p') :: ps))).
        { eapply Permutation_in; [apply Permutation_sym; exact Hperm |].
          cbn [concat]. apply in_or_app. now left. }
        cbn [concat] in Hin'.
        apply in_app_or in Hin'. destruct Hin' as [Hin' | Hin'].
        - pose proof (Hsame a b Ha Hin') as Hab.
          apply orb_false_elim in Hab. destruct Hab; congruence.
        - pose proof (Hbefore a b Ha Hin') as Hab.
          destruct order as [Hasym _].
          rewrite (Hasym a b Hab) in Hba. discriminate. }
      assert (Hpq : Permutation (a :: p') q).
      { assert (Hp1 : partitioned ((a :: p') :: ps))
          by (constructor; auto).
        assert (Hq1 : partitioned (q :: qs)) by (constructor; auto).
        rewrite <- (partitioned_first a (a :: p') ps Hp1 Ha) at 1.
        rewrite <- (partitioned_first a q qs Hq1 Haq).
        apply Permutation_filter. exact Hperm. }
      constructor; [exact Hpq |].
      apply IH; [exact Hqs |].
      cbn [concat] in Hperm.
      apply (Permutation_app_inv_l (a :: p')).
      etransitivity; [exact Hperm |].
      apply Permutation_app_tail. now apply Permutation_sym.
Qed.

Lemma Forall2_Permutation_length (ps qs : list (list Row)) :
  Forall2 (@Permutation Row) ps qs -> length ps = length qs.
Proof. induction 1; cbn; congruence. Qed.

(** *** The ranges between the boundaries partition the sorted rows *)

Lemma In_firstn_skipn (rows : list Row) (s k : nat) (a : Row) :
  In a (firstn k (skipn s rows)) ->
  exists i, (s <= i < s + k)%nat /\ nth_error rows i = Some a.
Proof.
  intros Hin. apply In_nth_error in Hin. destruct Hin as [i Hi].
  assert (Hik : (i < k)%nat).
  { assert (Hl : (i < length (firstn k (skipn s rows)))%nat)
      by (apply nth_error_Some; congruence).
    rewrite length_firstn in Hl. lia. }
  rewrite nth_error_firstn in Hi.
  destruct (Nat.ltb_spec i k); [| lia].
  rewrite nth_error_skipn in Hi.
  exists (s + i)%nat. split; [lia | exact Hi].
Qed.

Lemma In_skipn (rows : list Row) (s : nat) (a : Row) :
  In a (skipn s rows) ->
  exists i, (s <= i)%nat /\ nth_error rows i = Some a.
Proof.
  intros Hin. apply In_nth_error in Hin. destruct Hin as [i Hi].
  rewrite nth_error_skipn in Hi.
  exists (s + i)%nat. split; [lia | exact Hi].
Qed.

Lemma vectorAt_of_nat (rows : list Row) (i : nat) :
  vectorAt rows (Z.of_nat i) = nth_error rows i.
Proof.
  unfold vectorAt. destruct (Z.ltb_spec (Z.of_nat i) 0); [lia |].
  now rewrite Nat2Z.id.
Qed.

Lemma ranges_partitioned (rows : list Row) :
  partitionSorted rows ->
  forall start bs, boundaries rows start bs ->
    concat (ranges rows start bs) = skipn (Z.to_nat start) rows
    /\ partitioned (ranges rows start bs).
Proof.
  intros Hsorted. pose proof (strictWeakOrder_irrefl order) as Hirr.
  induction 1 as [| start bs Hstart Hbs [IHc IHp]].
  - cbn. unfold size. rewrite Nat2Z.id, skipn_all. split; constructor.
  - pose proof (linearScan_spec rows start Hstart) as Hspec.
    pose proof (sorted_block rows start _ order Hsorted ltac:(lia) Hspec)
      as Hblock.
    destruct Hspec as (Hrange & _).
    set (p := linearScan rows start) in *.
    cbn [ranges concat]. rewrite IHc.
    assert (Hskip : skipn (Z.to_nat p) rows
                    = skipn (Z.to_nat (p - start))
                        (skipn (Z.to_nat start) rows)).
    { rewrite skipn_skipn. f_equal. lia. }
    split.
    + rewrite Hskip. apply firstn_skipn.
    + assert (Hfirst : forall a,
                 In a (firstn (Z.to_nat (p - start))
                         (skipn (Z.to_nat start) rows)) ->
                 exists i, start <= i < p /\ vectorAt rows i = Some a).
      { intros a Ha. apply In_firstn_skipn in Ha.
        destruct Ha as (i & Hi & Hnth).
        exists (Z.of_nat i). rewrite vectorAt_of_nat. split; [lia | auto]. }
      constructor; [| | | exact IHp].
      * intros E.
        assert (Hl : length (firstn (Z.to_nat (p - start))
                               (skipn (Z.to_nat start) rows)) = O)
          by now rewrite E.
        rewrite length_firstn, length_skipn in Hl.
        unfold size in *. lia.
      * intros a b Ha Hb.
        destruct (Hfirst a Ha) as (i & Hi & Hai).
        destruct (Hfirst b Hb) as (j & Hj & Hbj).
        assert (Hle : forall i j a b, start <= i < p -> start <= j < p ->
                  i <= j -> vectorAt rows i = Some a ->
                  vectorAt rows j = Some b ->
                  compareRowsWithKeys a b = false).
        { intros i' j' a' b' Hi' Hj' Hij Ha' Hb'.
          rewrite (Hblock i' j' a' b' Hi' ltac:(lia) Ha' Hb').
          apply Z.leb_gt. lia. }
        apply orb_false_intro.
        -- destruct (Z.le_gt_cases i j) as [Hij | Hij].
           ++ apply (Hle i j); auto.
           ++ apply (partitionSorted_at rows Hsorted j i); auto.
        -- destruct (Z.le_gt_cases j i) as [Hij | Hij].
           ++ apply (Hle j i); auto.
           ++ apply (partitionSorted_at rows Hsorted i j); auto.
      * intros a b Ha Hb. rewrite IHc in Hb.
        destruct (Hfirst a Ha) as (i & Hi & Hai).
        apply In_skipn in Hb. destruct Hb as (j & Hj & Hbj).
        rewrite <- vectorAt_of_nat in Hbj.
        pose proof (vectorAt_range _ _ _ Hbj) as Hjr.
        rewrite (Hblock i (Z.of_nat j) a b Hi ltac:(lia) Hai Hbj).
        apply Z.leb_le. lia.
Qed.

(** *** Draining the merge stream *)

Lemma StronglySorted_app {A : Type} (R : A -> A -> Prop) (l1 l2 : list A) :
  StronglySorted R (l1 ++ l2) ->
  StronglySorted R l2
  /\ (forall a b, In a l1 -> In b l2 -> R a b).
Proof.
  induction l1 as [| x l1 IH]; cbn; intros H.
  - split; [exact H | intros a b []].
  - inversion H as [| x' l' Hs Hall]; subst.
    destruct (IH Hs) as [Hl2 Hcross]. split; [exact Hl2 |].
    intros a b [<- | Ha] Hb.
    + rewrite Forall_forall in Hall. apply Hall.
      apply in_or_app. now right.
    + now apply Hcross.
Qed.

Lemma last_buffered (buf : list Row) :
  (buf = [] /\ last (map Some buf) None = None)
  \/ (exists l back, buf = l ++ [back]
                     /\ last (map Some buf) None = Some back).
Proof.
  destruct buf as [| x buf'] using rev_ind; [now left |].
  right. exists buf', x. split; [reflexivity |].
  rewrite map_app. cbn [map]. apply last_last.
Qed.

Lemma keysDiffer_sym (a b : Row) : keysDiffer a b = keysDiffer b a.
Proof. unfold keysDiffer. apply orb_comm. Qed.

Lemma loadLoop_run (stream : list Row) :
  forall buf data,
    (forall a b, In a buf -> In b buf -> keysDiffer a b = false) ->
    partitionSorted (buf ++ stream) ->
    exists taken rest,
      loadLoop numPartitionKeys stream buf data
      = (buf ++ taken, data ++ taken, rest)
      /\ stream = taken ++ rest
      /\ (forall a b, In a (buf ++ taken) -> In b (buf ++ taken) ->
                      keysDiffer a b = false)
      /\ (forall a b, In a (buf ++ taken) -> In b rest ->
                      compareRowsWithKeys a b = true)
      /\ (buf = [] -> stream <> [] -> taken <> []).
Proof.
  pose proof order as [Hasym Hcot].
  induction stream as [| next stream IH]; intros buf data Hsame Hsorted.
  - exists [], []. cbn. rewrite !app_nil_r.
    repeat split; auto.
  - cbn [loadLoop].
    assert (Hcontinue :
      (forall a, In a buf -> keysDiffer a next = false) ->
      exists taken rest,
        loadLoop numPartitionKeys stream (buf ++ [next]) (data ++ [next])
        = (buf ++ taken, data ++ taken, rest)
        /\ next :: stream = taken ++ rest
        /\ (forall a b, In a (buf ++ taken) -> In b (buf ++ taken) ->
                        keysDiffer a b = false)
        /\ (forall a b, In a (buf ++ taken) -> In b rest ->
                        compareRowsWithKeys a b = true)
        /\ (buf = [] -> next :: stream <> [] -> taken <> [])).
    { intros Hnext.
      destruct (IH (buf ++ [next]) (data ++ [next]))
        as (taken & rest & Heq & Hstream & Hsame' & Hbefore & _).
      - intros a b Ha Hb.
        apply in_app_or in Ha. apply in_app_or in Hb.
        destruct Ha as [Ha | [<- | []]], Hb as [Hb | [<- | []]].
        + now apply Hsame.
        + now apply Hnext.
        + rewrite keysDiffer_sym. now apply Hnext.
        + apply (keysDiffer_refl order).
      - rewrite <- app_assoc. exact Hsorted.
      - exists (next :: taken), rest.
        rewrite <- !app_assoc in Heq, Hsame', Hbefore. cbn in *.
        split; [rewrite Heq, <- (app_assoc data); reflexivity |].
        split; [congruence |].
        repeat split; auto. discriminate. }
    destruct (last_buffered buf) as [[-> ->] | (l & back & -> & ->)].
    + apply Hcontinue. intros a [].
    + rewrite equalityFlags.
      destruct (keysDiffer back next) eqn:Hd.
      * exists [], (next :: stream). rewrite !app_nil_r.
        repeat split; auto.
        -- intros a b Ha Hb.
           destruct (StronglySorted_app _ _ _ Hsorted) as [Hrest Hcross].
           assert (Hback : In back (l ++ [back]))
             by (apply in_or_app; right; now left).
           assert (Hlt : compareRowsWithKeys back next = true).
           { apply orb_true_iff in Hd. destruct Hd as [H | H]; [exact H |].
             rewrite (Hcross back next Hback (or_introl eq_refl)) in H.
             discriminate. }
           assert (Hbb : compareRowsWithKeys back b = true).
           { destruct (Hcot back b next Hlt) as [H | H]; [exact H |].
             destruct Hb as [<- | Hb].
             - rewrite (strictWeakOrder_irrefl order) in H. discriminate.
             - inversion Hrest as [| x' l' _ Hall]; subst.
               rewrite Forall_forall in Hall.
               rewrite (Hall b Hb) in H. discriminate. }
           destruct (Hcot back a b Hbb) as [H | H]; [| exact H].
           pose proof (Hsame back a Hback Ha) as Hba.
           apply orb_false_elim in Hba. destruct Hba; congruence.
        -- intros E. symmetry in E. now apply app_cons_not_nil in E.
      * apply Hcontinue. intros a Ha.
        assert (Hback : In back (l ++ [back]))
          by (apply in_or_app; right; now left).
        rewrite (keysDiffer_congruent order a back next); [exact Hd |].
        now apply Hsame.
Qed.

Lemma drain_merge (fuel : nat) :
  forall st stream,
    merge_ st = Some stream -> numPartitionKeys_ st = numPartitionKeys ->
    (length stream < fuel)%nat -> partitionSorted stream ->
    exists gs st',
      drain fuel st = (Ok gs, st')
      /\ concat gs = stream /\ partitioned gs
      /\ merge_ st' = Some [] /\ sortedRows_ st' = [].
Proof.
  induction fuel as [| fuel IH]; intros st stream Hm Hk Hfuel Hsorted;
    [lia |].
  cbn [drain]. unfold hasNextPartition. rewrite Hm.
  unfold loadNextPartitionFromSpill. rewrite Hk.
  destruct (loadLoop_run stream [] [])
    as (taken & rest & Heq & Hstream & Hsame & Hbefore & Hne).
  { intros a b []. }
  { exact Hsorted. }
  rewrite Heq. cbn [app] in *.
  cbn [sortedRows_ with_merge with_data with_sortedRows].
  destruct taken as [| t taken'].
  - cbn [isEmpty negb].
    destruct stream as [| x stream']; [| now destruct Hne].
    destruct rest; [| discriminate].
    eexists [], _. repeat split; constructor.
  - cbn [isEmpty negb]. unfold nextPartition.
    cbn [merge_ with_merge sortedRows_ with_data with_sortedRows isEmpty].
    match goal with |- context [drain fuel ?s] => set (st1 := s) end.
    destruct (IH st1 rest)
      as (gs & st' & Hdrain & Hconcat & Hgs & Hm' & Hs').
    + reflexivity.
    + exact Hk.
    + subst stream. rewrite length_app in Hfuel. cbn in Hfuel. lia.
    + subst stream.
      apply (StronglySorted_app _ (t :: taken') rest Hsorted).
    + rewrite Hdrain. exists ((t :: taken') :: gs), st'.
      repeat split; auto.
      * cbn [concat]. now rewrite Hconcat.
      * constructor; auto; [discriminate |].
        intros a b Ha Hb. rewrite Hconcat in Hb. now apply Hbefore.
Qed.

(** *** Finalisation and the whole run *)

Lemma listRows_all (data : list Row) (n : nat) (d : Row) :
  length data = n -> listRows data n (resize n [] d) = data.
Proof.
  intros Hn. unfold listRows, resize.
  rewrite firstn_all2 by lia. rewrite firstn_nil. cbn [app length].
  rewrite skipn_all2; [apply app_nil_r |].
  rewrite repeat_length. lia.
Qed.

Lemma increasing_length (n : Z) (l : list Z) :
  forall x, StronglySorted Z.lt (x :: l) ->
            Forall (fun b => b <= n) (x :: l) ->
            size l <= n - x.
Proof.
  induction l as [| y l IH]; intros x Hs Hall.
  - inversion Hall; subst. change (size (@nil Z)) with 0. lia.
  - inversion Hs as [| ? ? Hs' Hx]; subst.
    inversion Hx as [| ? ? Hxy _]; subst.
    inversion Hall as [| ? ? _ Hall']; subst.
    specialize (IH y Hs' Hall'). rewrite size_cons. lia.
Qed.

Lemma noMoreInput_empty (st : State) :
  numRows_ st = 0 -> noMoreInput st = Ok st.
Proof. intros H. unfold noMoreInput. now rewrite H. Qed.

Lemma noMoreInput_memory (st : State) (rows : list Row) :
  Accumulating flags st rows ->
  0 < size rows <= 2 ^ 30 ->
  spiller_ (ensureSortFits st) = None ->
  exists st' bs,
    noMoreInput st = Ok st'
    /\ merge_ st' = None /\ spiller_ st' = None
    /\ currentPartition_ st' = -1 /\ numRows_ st' = size rows
    /\ Permutation (sortedRows_ st') rows
    /\ partitionSorted (sortedRows_ st')
    /\ partitionStartRows_ st' = 0 :: bs
    /\ boundaries (sortedRows_ st') 0 bs.
Proof.
  intros HA Hsize Hsp. unfold noMoreInput.
  pose proof (accumulating_numRows _ _ _ HA) as Hn. rewrite Hn.
  destruct (Z.eqb_spec (size rows) 0); [lia |].
  pose proof (Accumulating_ensureSortFits flags st rows HA)
    as [Hf Hm Hs Hp Hc Hn1 Hrows].
  set (st1 := ensureSortFits st) in *.
  rewrite Hsp. specialize (Hrows Hsp).
  unfold sortPartitions. rewrite Hn1, Hs, Hf.
  rewrite (u64_small (size rows)) by lia.
  rewrite listRows_all
    by (unfold size; rewrite Nat2Z.id; now apply Permutation_length).
  destruct (sorter (data_ st1)) as [Hperm Hsorted].
  set (sorted := prefixSort flags (data_ st1)) in *.
  assert (Hlen : size sorted = size rows).
  { unfold size. f_equal. apply Permutation_length.
    etransitivity; eauto. }
  unfold computePartitionStartRows.
  cbn [sortedRows_ partitionStartRows_ with_sortedRows].
  rewrite Hp, Hlen. cbn [app].
  destruct (Z.ltb_spec 0 (size rows)); [| lia].
  destruct (boundaryLoop_boundaries sorted order Hsorted ltac:(lia)
              (S (length sorted)) 0 [0]) as (bs & Heq & Hbs).
  { lia. }
  { unfold size in *. lia. }
  rewrite Heq. cbn [bind app].
  eexists _, bs. split; [reflexivity |]. cbn.
  repeat split; auto.
  etransitivity; eauto.
Qed.

Lemma Building_Accumulating (st : State) (rows : list Row) :
  Building flags numPartitionKeys st rows -> Accumulating flags st rows.
Proof.
  intros [Hf Hk Hm Hs Hp Hc Hn Hrows Hruns].
  constructor; auto.
  intros Hsp. unfold spilledRuns in Hrows. now rewrite Hsp in Hrows.
Qed.

Lemma noMoreInput_merge (st : State) (rows : list Row)
    (runs : list (list Row)) :
  Building flags numPartitionKeys st rows ->
  0 < size rows < 2 ^ 31 ->
  spiller_ (ensureSortFits st) = Some runs ->
  exists st' stream,
    noMoreInput st = Ok st'
    /\ merge_ st' = Some stream /\ spiller_ st' <> None
    /\ numPartitionKeys_ st' = numPartitionKeys
    /\ numRows_ st' = size rows
    /\ Permutation stream rows /\ partitionSorted stream.
Proof.
  intros HB Hsize Hsp. unfold noMoreInput.
  pose proof (building_numRows _ _ _ _ HB) as Hn. rewrite Hn.
  destruct (Z.eqb_spec (size rows) 0); [lia |].
  pose proof (Building_ensureSortFits st rows HB) as HB1.
  set (st1 := ensureSortFits st) in *.
  rewrite Hsp.
  pose proof (Building_spill st1 rows HB1)
    as [Hf Hk Hm Hs Hp Hc Hn1 Hrows Hruns].
  set (st2 := spill st1) in *.
  rewrite Hm. unfold finishSpill. fold (spilledRuns st2). rewrite Hf.
  destruct (reader (spilledRuns st2)) as [Hperm Hsorted].
  eexists _, _. split; [reflexivity |]. cbn.
  repeat split; auto; [discriminate |].
  etransitivity; [exact Hperm |].
  assert (Hdata : data_ st2 = []) by reflexivity.
  rewrite Hdata, app_nil_r in Hrows. exact Hrows.
Qed.

Lemma nextPartition_consumed (st : State) (b0 b1 : Z) (bs : list Z) :
  merge_ st = None ->
  partitionStartRows_ st = b0 :: b1 :: bs ->
  size (partitionStartRows_ st) < 2 ^ 31 ->
  currentPartition_ st = size (partitionStartRows_ st) - 2 ->
  fst (nextPartition st) = Fail AllWindowPartitionsConsumed.
Proof.
  intros Hm Hstarts Hsize Hc. unfold nextPartition.
  rewrite Hm, Hstarts. cbn [isEmpty].
  cbn [currentPartition_ with_currentPartition partitionStartRows_].
  rewrite Hc, Hstarts in *. rewrite !size_cons in *.
  pose proof (size_nonneg bs).
  rewrite int32_small by lia.
  rewrite !u64_small by lia.
  destruct (Z.leb_spec (1 + (1 + size bs) - 2 + 1) (1 + (1 + size bs) - 2));
    [lia | reflexivity].
Qed.

(** Every run of the builder hands out a partitioning of the rows it was
    given, and has nothing to hand out after it. *)
Lemma run_partitions (st : State) (rows : list Row) :
  Building flags numPartitionKeys st rows ->
  size rows <= 2 ^ 30 ->
  exists st1 gs st2,
    noMoreInput st = Ok st1
    /\ numRows_ st1 = size rows
    /\ drainAll st1 = (Ok gs, st2)
    /\ partitioned gs
    /\ Permutation (concat gs) rows
    /\ exists e, fst (nextPartition st2) = Fail e /\ noPartitionLeft e.
Proof.
  intros HB Hbound. pose proof (size_nonneg rows) as Hnn.
  destruct (Z.eq_dec (size rows) 0) as [Hzero | Hpos].
  - pose proof HB as [Hf Hk Hm Hs Hp Hc Hn Hrows Hruns].
    exists st, [], st. rewrite noMoreInput_empty by congruence.
    unfold drainAll. rewrite Hn, Hzero. cbn [Z.to_nat drain].
    unfold hasNextPartition. rewrite Hm, Hp. cbn.
    repeat split; auto; [constructor | |].
    + destruct rows; [constructor | discriminate].
    + exists NoWindowPartitionsAvailable. unfold nextPartition.
      rewrite Hm, Hp. split; [reflexivity | now left].
  - destruct (spiller_ (ensureSortFits st)) as [runs |] eqn:Hsp.
    + destruct (noMoreInput_merge st rows runs HB ltac:(lia) Hsp)
        as (st1 & stream & Heq & Hm & _ & Hk & Hn & Hperm & Hsorted).
      destruct (drain_merge (S (Z.to_nat (numRows_ st1))) st1 stream Hm Hk)
        as (gs & st2 & Hdrain & Hconcat & Hgs & Hm2 & Hs2);
        [| exact Hsorted |].
      { rewrite Hn. apply Permutation_length in Hperm.
        unfold size. lia. }
      exists st1, gs, st2. repeat split; auto.
      * now rewrite Hconcat.
      * exists NoWindowPartitionsAvailable. unfold nextPartition.
        rewrite Hm2, Hs2. split; [reflexivity | now left].
    + destruct (noMoreInput_memory st rows (Building_Accumulating _ _ HB)
                  ltac:(lia) Hsp)
        as (st1 & bs & Heq & Hm & _ & Hc & Hn & Hperm & Hsorted & Hstarts
            & Hbs).
      assert (Hlen : size (sortedRows_ st1) = size rows).
      { unfold size. f_equal. now apply Permutation_length. }
      destruct (boundaries_increasing _ _ _ Hbs) as (Hinc & _ & Hall).
      assert (Hcount : size bs <= size rows).
      { pose proof (increasing_length (size rows) bs 0 Hinc) as H.
        rewrite Z.sub_0_r in H. apply H.
        eapply Forall_impl; [| exact Hall]. cbn. intros b Hb. lia. }
      destruct (drain_memory bs (S (Z.to_nat (numRows_ st1))) st1 [] 0)
        as (st2 & Hdrain & Hm2 & Hstarts2 & Hc2); auto.
      { cbn [app]. rewrite size_cons. lia. }
      { eapply Forall_impl; [| exact Hall]. cbn. intros b Hb. lia. }
      { rewrite Hn. unfold size in *. lia. }
      destruct (ranges_partitioned _ Hsorted 0 bs Hbs) as [Hconcat Hgs].
      exists st1, (ranges (sortedRows_ st1) 0 bs), st2.
      repeat split; auto.
      * rewrite Hconcat. cbn [Z.to_nat skipn]. exact Hperm.
      * exists AllWindowPartitionsConsumed. split; [| now right].
        inversion Hbs as [Hend | ? bs' ? Hbs' ]; subst; [lia |].
        rewrite <- Hstarts2 in Hc2.
        eapply nextPartition_consumed; eauto.
        -- rewrite Hstarts2. exact Hstarts.
        -- rewrite Hstarts2, Hstarts, size_cons. lia.
Qed.

(** *** Whole runs of at most 2^30 rows *)

(** X19: for a non-empty accumulated input of at most 2^30 rows
    finalised in memory mode (no spill), the boundary list made by
    [computePartitionStartRows] begins with 0, ends with the total row
    count and is strictly increasing, and its length minus one is the
    number of partitions: of the sorted rows, counted by the sequential
    traversal, and of the views the drain hands out. *)
Theorem boundary_list_shape (cfg : option SpillConfig)
    (sortingOrders : list SortOrder) (pool : Pool) (hook : nat -> bool)
    (batches : list (list Row)) :
  flags = makeCompareFlags numPartitionKeys sortingOrders ->
  0 < size (concat batches) <= 2 ^ 30 ->
  exists st',
    noMoreInput
      (addInputs (construct cfg numPartitionKeys sortingOrders pool hook)
         batches) = Ok st'
    /\ (spiller_ st' = None ->
        exists bs,
          partitionStartRows_ st' = 0 :: bs
          /\ last (0 :: bs) 0 = size (concat batches)
          /\ StronglySorted Z.lt (0 :: bs)
          /\ length bs = partitionCount (sortedRows_ st')
          /\ exists parts st'',
               drainAll st' = (Ok parts, st'')
               /\ length parts = length bs).
Proof.
  intros Hflags Hsize.
  pose proof (Accumulating_addInputs _ batches _ []
                (Accumulating_construct cfg numPartitionKeys sortingOrders
                   pool hook)
                ltac:(cbn [app]; lia)) as HA.
  cbn [app] in HA. rewrite <- Hflags in HA.
  set (st := addInputs _ batches) in *.
  destruct (spiller_ (ensureSortFits st)) as [runs |] eqn:Hsp.
  - destruct (noMoreInput_opens_merge flags st _ runs HA) as
      (st1 & Heq & Hspiller & _); auto.
    { rewrite (accumulating_numRows _ _ _ HA). lia. }
    exists st1. split; [exact Heq |]. intros Hnone. contradiction.
  - destruct (noMoreInput_memory st _ HA ltac:(lia) Hsp)
      as (st1 & bs & Heq & Hm & _ & Hc & Hn & Hperm & Hsorted & Hstarts
          & Hbs).
    exists st1. split; [exact Heq |]. intros _. exists bs.
    assert (Hlen : size (sortedRows_ st1) = size (concat batches)).
    { unfold size. f_equal. now apply Permutation_length. }
    destruct (boundaries_increasing _ _ _ Hbs) as (Hinc & Hlast & Hall).
    split; [exact Hstarts |].
    split; [now rewrite Hlast |].
    split; [exact Hinc |].
    split; [now rewrite (boundaries_count _ _ _ order Hbs) |].
    assert (Hcount : size bs <= size (concat batches)).
    { pose proof (increasing_length (size (concat batches)) bs 0 Hinc)
        as H.
      rewrite Z.sub_0_r in H. apply H.
      eapply Forall_impl; [| exact Hall]. cbn. intros b Hb. lia. }
    destruct (drain_memory bs (S (Z.to_nat (numRows_ st1))) st1 [] 0)
      as (st2 & Hdrain & _); auto.
    { cbn [app]. rewrite size_cons. lia. }
    { eapply Forall_impl; [| exact Hall]. cbn. intros b Hb. lia. }
    { rewrite Hn. unfold size in *. lia. }
    exists (ranges (sortedRows_ st1) 0 bs), st2.
    split; [exact Hdrain | apply ranges_length].
Qed.

(** X20: over the same batches, of at most 2^30 rows in all, a run with
    the test hook forcing a spill from the start and a run in which no
    spill ever occurs hand out the same number of partitions and,
    partition for partition, the same multiset of rows. *)
Theorem forced_spill_same_partitions (cfg : SpillConfig)
    (cfg' : option SpillConfig) (sortingOrders : list SortOrder)
    (pool pool' : Pool) (batches : list (list Row)) :
  flags = makeCompareFlags numPartitionKeys sortingOrders ->
  size (concat batches) <= 2 ^ 30 ->
  exists spilled inMemory partsS partsM endS endM,
    noMoreInput
      (addInputs
         (construct (Some cfg) numPartitionKeys sortingOrders pool
            (fun _ => true))
         batches) = Ok spilled
    /\ noMoreInput
         (addInputs
            (construct cfg' numPartitionKeys sortingOrders pool'
               (fun _ => false))
            batches) = Ok inMemory
    /\ (concat batches <> [] -> merge_ spilled <> None)
    /\ spiller_ inMemory = None /\ merge_ inMemory = None
    /\ drainAll spilled = (Ok partsS, endS)
    /\ drainAll inMemory = (Ok partsM, endM)
    /\ length partsS = length partsM
    /\ Forall2 (@Permutation Row) partsS partsM.
Proof.
  intros Hflags Hsize.
  pose proof (Building_addInputs batches _ []
                (Building_construct (Some cfg) sortingOrders pool
                   (fun _ => true) Hflags)
                ltac:(cbn [app]; lia)) as HBs.
  pose proof (Building_addInputs batches _ []
                (Building_construct cfg' sortingOrders pool'
                   (fun _ => false) Hflags)
                ltac:(cbn [app]; lia)) as HBm.
  cbn [app] in HBs, HBm.
  set (stS := addInputs (construct (Some cfg) _ _ _ _) batches) in *.
  set (stM := addInputs (construct cfg' _ _ _ _) batches) in *.
  destruct (run_partitions stS _ HBs Hsize)
    as (spilled & partsS & endS & HeqS & HnS & HdrainS & HpS & HpermS & _).
  destruct (run_partitions stM _ HBm Hsize)
    as (inMemory & partsM & endM & HeqM & HnM & HdrainM & HpM & HpermM & _).
  assert (Hunique : Forall2 (@Permutation Row) partsS partsM).
  { apply partitioned_unique; auto.
    etransitivity; [exact HpermS | now apply Permutation_sym]. }
  exists spilled, inMemory, partsS, partsM, endS, endM.
  pose proof (size_nonneg (concat batches)) as Hnn.
  assert (HhookM : forall k, testingSpill_ stM k = false).
  { intros k. subst stM.
    destruct (addInputs_frame batches
                (construct cfg' numPartitionKeys sortingOrders pool'
                   (fun _ => false))) as [_ ->].
    reflexivity. }
  assert (HspM : spiller_ (ensureSortFits stM) = None).
  { rewrite ensureSortFits_no_spill by exact HhookM.
    subst stM. now rewrite addInputs_no_spill. }
  assert (Hmodes : spiller_ inMemory = None /\ merge_ inMemory = None).
  { destruct (Z.eq_dec (size (concat batches)) 0) as [Hzero | Hpos].
    - rewrite noMoreInput_empty in HeqM
        by (rewrite (building_numRows _ _ _ _ HBm); exact Hzero).
      injection HeqM as <-. split.
      + rewrite <- HspM. now rewrite ensureSortFits_no_spill.
      + apply (building_merge _ _ _ _ HBm).
    - destruct (noMoreInput_memory stM _ (Building_Accumulating _ _ HBm)
                  ltac:(lia) HspM)
        as (st1 & bs & Heq & Hm & Hs & _).
      rewrite HeqM in Heq. injection Heq as <-. auto. }
  repeat split; auto; try apply Hmodes.
  - intros Hne.
    assert (Hpos : 0 < size (concat batches)).
    { destruct (concat batches); [congruence |]. rewrite size_cons. 
      pose proof (size_nonneg l). lia. }
    destruct (spiller_ (ensureSortFits stS)) as [runs |] eqn:Hsp.
    + destruct (noMoreInput_merge stS _ runs HBs ltac:(lia) Hsp)
        as (st1 & stream & Heq & Hm & _).
      rewrite HeqS in Heq. injection Heq as <-. congruence.
    + exfalso. revert Hsp.
      apply (ensureSortFits_forced stS cfg); subst stS.
      * now destruct (addInputs_frame batches
                        (construct (Some cfg) numPartitionKeys
                           sortingOrders pool (fun _ => true)))
          as [-> _].
      * intros k.
        now destruct (addInputs_frame batches
                        (construct (Some cfg) numPartitionKeys
                           sortingOrders pool (fun _ => true)))
          as [_ ->].
  - now apply Forall2_Permutation_length.
Qed.

(** X21: for every sequence of batches of at most 2^30 rows in all
    given to [addInput], followed by [noMoreInput] and a full drain, the
    stored row count is the sum of the batch sizes, and so is the number
    of rows over all the views handed out. *)
Theorem rows_in_rows_out (cfg : option SpillConfig)
    (sortingOrders : list SortOrder) (pool : Pool) (hook : nat -> bool)
    (batches : list (list Row)) :
  flags = makeCompareFlags numPartitionKeys sortingOrders ->
  size (concat batches) <= 2 ^ 30 ->
  let total := fold_right Z.add 0 (map size batches) in
  let st :=
    addInputs (construct cfg numPartitionKeys sortingOrders pool hook)
      batches in
  numRows_ st = total
  /\ size (concat (spilledRuns st) ++ data_ st) = total
  /\ exists st1 parts st2,
       noMoreInput st = Ok st1
       /\ numRows_ st1 = total
       /\ drainAll st1 = (Ok parts, st2)
       /\ fold_right Z.add 0 (map size parts) = total.
Proof.
  intros Hflags Hsize total st. subst total.
  pose proof (Building_addInputs batches _ []
                (Building_construct cfg sortingOrders pool hook Hflags)
                ltac:(cbn [app]; lia)) as HB.
  cbn [app] in HB. fold st in HB.
  rewrite <- size_concat.
  split; [apply (building_numRows _ _ _ _ HB) |].
  split.
  { unfold size. f_equal. apply Permutation_length.
    apply (building_rows _ _ _ _ HB). }
  destruct (run_partitions st _ HB Hsize)
    as (st1 & parts & st2 & Heq & Hn & Hdrain & _ & Hperm & _).
  exists st1, parts, st2. repeat split; auto.
  rewrite <- size_concat. unfold size. f_equal.
  now apply Permutation_length.
Qed.


(** *** Further properties of whole runs *)


Lemma Building_calls (cs : list Call) :
  forall (st : State) (rows : list Row),
    Building flags numPartitionKeys st rows ->
    size (rows ++ inputOf cs) < 2 ^ 31 ->
    Building flags numPartitionKeys (calls st cs) (rows ++ inputOf cs).
Proof.
  unfold calls, inputOf.
  induction cs as [| c cs IH]; intros st rows HB Hsize;
    cbn [fold_left flat_map].
  - now rewrite app_nil_r.
  - cbn [flat_map] in Hsize. rewrite app_assoc in *.
    apply IH; [| exact Hsize].
    destruct c as [input |]; cbn [call].
    + apply Building_addInput; [exact HB |].
      unfold size in *. rewrite !length_app in *. lia.
    + rewrite app_nil_r. now apply Building_spill.
Qed.

Lemma partitioned_nth (ps : list (list Row)) :
  partitioned ps ->
  (forall i p a b, nth_error ps i = Some p -> In a p -> In b p ->
                   keysDiffer a b = false)
  /\ (forall i j p q a b, (i < j)%nat ->
        nth_error ps i = Some p -> nth_error ps j = Some q ->
        In a p -> In b q -> compareRowsWithKeys a b = true).
Proof.
  induction 1 as [| p ps Hne Hsame Hbefore Hps [IHs IHc]].
  - split; intros [| i]; intros; discriminate.
  - split.
    + intros [| i] p' a b Hp; cbn in Hp.
      * injection Hp as <-. apply Hsame.
      * now apply (IHs i).
    + intros [| i] [| j] p' q a b Hij Hp Hq Ha Hb; cbn in Hp, Hq; try lia.
      * injection Hp as <-. apply Hbefore; [exact Ha |].
        apply in_concat. exists q. split; [| exact Hb].
        eapply nth_error_In; eauto.
      * apply (IHc i j p' q); auto. lia.
Qed.

(** X13: whatever batches arrive, and wherever [spill()] is called
    between them, the views the drain hands out hold the rows given,
    each row once; the rows of a view have the same partition keys, and
    the rows of a view order before the rows of every later view. *)
Theorem partitions_grouped_by_key (cfg : option SpillConfig)
    (sortingOrders : list SortOrder) (pool : Pool) (hook : nat -> bool)
    (cs : list Call) :
  flags = makeCompareFlags numPartitionKeys sortingOrders ->
  (cfg = None -> ~ In CallSpill cs) ->
  size (inputOf cs) <= 2 ^ 30 ->
  exists st1 parts st2,
    noMoreInput
      (calls (construct cfg numPartitionKeys sortingOrders pool hook) cs)
    = Ok st1
    /\ drainAll st1 = (Ok parts, st2)
    /\ Permutation (concat parts) (inputOf cs)
    /\ (forall i p a b, nth_error parts i = Some p -> In a p -> In b p ->
                        keysDiffer a b = false)
    /\ (forall i j p q a b, (i < j)%nat ->
          nth_error parts i = Some p -> nth_error parts j = Some q ->
          In a p -> In b q -> compareRowsWithKeys a b = true).
Proof.
  intros Hflags _ Hsize.
  pose proof (Building_calls cs _ []
                (Building_construct cfg sortingOrders pool hook Hflags)
                ltac:(cbn [app]; lia)) as HB.
  cbn [app] in HB.
  destruct (run_partitions _ _ HB Hsize)
    as (st1 & parts & st2 & Heq & _ & Hdrain & Hparts & Hperm & _).
  exists st1, parts, st2.
  destruct (partitioned_nth parts Hparts) as [Hs Hc].
  repeat split; auto.
Qed.

Lemma noMoreInput_flush (st : State) (rows : list Row)
    (runs : list (list Row)) :
  Building flags numPartitionKeys st rows ->
  numRows_ st <> 0 ->
  spiller_ (ensureSortFits st) = Some runs ->
  exists st', noMoreInput st = Ok st' /\ data_ st' = []
              /\ sortedRows_ st' = [] /\ partitionStartRows_ st' = [].
Proof.
  intros HB Hrows Hsp. unfold noMoreInput.
  destruct (Z.eqb_spec (numRows_ st) 0); [contradiction |].
  rewrite Hsp.
  pose proof (Building_spill _ rows (Building_ensureSortFits st rows HB))
    as HB'.
  rewrite (building_merge _ _ _ _ HB'). unfold finishSpill.
  eexists. split; [reflexivity |].
  cbn [data_ sortedRows_ partitionStartRows_ with_pool with_merge].
  split; [now rewrite spill_eq |].
  split; [apply (building_sortedRows _ _ _ _ HB')
         | apply (building_starts _ _ _ _ HB')].
Qed.

(** The order of the rows a run hands out, in either mode. *)
Lemma run_order (st : State) (rows : list Row) :
  Building flags numPartitionKeys st rows ->
  size rows <= 2 ^ 30 ->
  exists st1 parts st2,
    noMoreInput st = Ok st1
    /\ drainAll st1 = (Ok parts, st2)
    /\ (merge_ st1 = None ->
        concat parts = sortedRows_ st1
        /\ Permutation (sortedRows_ st1) rows
        /\ partitionSorted (sortedRows_ st1))
    /\ (forall stream, merge_ st1 = Some stream ->
          concat parts = stream
          /\ Permutation stream rows /\ partitionSorted stream
          /\ data_ st1 = [] /\ sortedRows_ st1 = []).
Proof.
  intros HB Hbound. pose proof (size_nonneg rows) as Hnn.
  destruct (Z.eq_dec (size rows) 0) as [Hzero | Hpos].
  - pose proof HB as [Hf Hk Hm Hs Hp Hc Hn Hrows Hruns].
    exists st, [], st. rewrite noMoreInput_empty by congruence.
    unfold drainAll. rewrite Hn, Hzero. cbn [Z.to_nat drain].
    unfold hasNextPartition. rewrite Hm, Hp. cbn.
    split; [reflexivity |]. split; [reflexivity |].
    split; [| intros stream E; discriminate].
    intros _. rewrite Hs.
    split; [reflexivity |].
    split; [destruct rows; [constructor | discriminate] | constructor].
  - destruct (spiller_ (ensureSortFits st)) as [runs |] eqn:Hsp.
    + destruct (noMoreInput_merge st rows runs HB ltac:(lia) Hsp)
        as (st1 & stream & Heq & Hm & _ & Hk & Hn & Hperm & Hsorted).
      destruct (noMoreInput_flush st rows runs HB) as
        (st1' & Heq' & Hdata & Hsr & _); auto.
      { rewrite (building_numRows _ _ _ _ HB). lia. }
      rewrite Heq in Heq'. injection Heq' as <-.
      destruct (drain_merge (S (Z.to_nat (numRows_ st1))) st1 stream Hm Hk)
        as (gs & st2 & Hdrain & Hconcat & _); [| exact Hsorted |].
      { rewrite Hn. apply Permutation_length in Hperm.
        unfold size. lia. }
      exists st1, gs, st2. repeat split; auto; try congruence.
    + destruct (noMoreInput_memory st rows (Building_Accumulating _ _ HB)
                  ltac:(lia) Hsp)
        as (st1 & bs & Heq & Hm & _ & Hc & Hn & Hperm & Hsorted & Hstarts
            & Hbs).
      assert (Hlen : size (sortedRows_ st1) = size rows).
      { unfold size. f_equal. now apply Permutation_length. }
      destruct (boundaries_increasing _ _ _ Hbs) as (Hinc & _ & Hall).
      assert (Hcount : size bs <= size rows).
      { pose proof (increasing_length (size rows) bs 0 Hinc) as H.
        rewrite Z.sub_0_r in H. apply H.
        eapply Forall_impl; [| exact Hall]. cbn. intros b Hb. lia. }
      destruct (drain_memory bs (S (Z.to_nat (numRows_ st1))) st1 [] 0)
        as (st2 & Hdrain & _); auto.
      { cbn [app]. rewrite size_cons. lia. }
      { eapply Forall_impl; [| exact Hall]. cbn. intros b Hb. lia. }
      { rewrite Hn. unfold size in *. lia. }
      destruct (ranges_partitioned _ Hsorted 0 bs Hbs) as [Hconcat _].
      exists st1, (ranges (sortedRows_ st1) 0 bs), st2.
      repeat split; auto; congruence.
Qed.

(** X14: on an input of at most 2^30 rows, the views the drain hands
    out are consecutive stretches of the sorted row array in memory
    mode, and of the merge stream in merge mode: put end to end, in the
    order they were handed out, they are that array or that stream. *)
Theorem views_in_sorted_order (cfg : option SpillConfig)
    (sortingOrders : list SortOrder) (pool : Pool) (hook : nat -> bool)
    (cs : list Call) :
  flags = makeCompareFlags numPartitionKeys sortingOrders ->
  (cfg = None -> ~ In CallSpill cs) ->
  size (inputOf cs) <= 2 ^ 30 ->
  exists st1 parts st2,
    noMoreInput
      (calls (construct cfg numPartitionKeys sortingOrders pool hook) cs)
    = Ok st1
    /\ drainAll st1 = (Ok parts, st2)
    /\ (merge_ st1 = None -> concat parts = sortedRows_ st1)
    /\ (forall stream, merge_ st1 = Some stream -> concat parts = stream).
Proof.
  intros Hflags _ Hsize.
  pose proof (Building_calls cs _ []
                (Building_construct cfg sortingOrders pool hook Hflags)
                ltac:(cbn [app]; lia)) as HB.
  cbn [app] in HB.
  destruct (run_order _ _ HB Hsize)
    as (st1 & parts & st2 & Heq & Hdrain & Hmem & Hmerge).
  exists st1, parts, st2. repeat split; auto.
  - intros Hm. apply (Hmem Hm).
  - intros stream Hm. apply (Hmerge stream Hm).
Qed.




(** *** Runs over one partition of more than 2^30 rows *)

(** The drain over the boundary list the wrapped search leaves: one
    view, of [1 - 2^30] rows from row 0, which the model reads as no
    row. *)
Lemma drain_wrapped (fuel : nat) (st : State) :
  merge_ st = None ->
  partitionStartRows_ st = [0; 1 - 2 ^ 30] ->
  currentPartition_ st = -1 ->
  drain (S (S fuel)) st = (Ok [[]], with_currentPartition st 0).
Proof.
  intros Hm Hstarts Hc.
  assert (Hfirst : hasNextPartition st = (true, st)).
  { unfold hasNextPartition. rewrite Hm, Hstarts, Hc. reflexivity. }
  assert (Hview : nextPartition st = (Ok [], with_currentPartition st 0)).
  { unfold nextPartition. rewrite Hm, Hstarts. cbn [isEmpty].
    cbn [currentPartition_ with_currentPartition partitionStartRows_
         sortedRows_].
    rewrite Hc, Hstarts. reflexivity. }
  assert (Hlast : hasNextPartition (with_currentPartition st 0)
                  = (false, with_currentPartition st 0)).
  { unfold hasNextPartition.
    cbn [merge_ currentPartition_ with_currentPartition
         partitionStartRows_].
    rewrite Hm, Hstarts. reflexivity. }
  cbn [drain]. rewrite Hfirst, Hview, Hlast. reflexivity.
Qed.

Lemma noMoreInput_memory_wraps (st : State) (rows : list Row) :
  Accumulating flags st rows ->
  2 ^ 30 < size rows < 2 ^ 31 ->
  (forall a b, In a rows -> In b rows -> compareRowsWithKeys a b = false) ->
  spiller_ (ensureSortFits st) = None ->
  exists st1 st2,
    noMoreInput st = Ok st1
    /\ merge_ st1 = None /\ spiller_ st1 = None
    /\ numRows_ st1 = size rows
    /\ Permutation (sortedRows_ st1) rows
    /\ partitionStartRows_ st1 = [0; 1 - 2 ^ 30]
    /\ drainAll st1 = (Ok [[]], st2).
Proof.
  intros HA Hsize Hone Hsp. unfold noMoreInput.
  pose proof (accumulating_numRows _ _ _ HA) as Hn. rewrite Hn.
  destruct (Z.eqb_spec (size rows) 0); [lia |].
  pose proof (Accumulating_ensureSortFits flags st rows HA)
    as [Hf Hm Hs Hp Hc Hn1 Hrows].
  set (st1 := ensureSortFits st) in *.
  rewrite Hsp. specialize (Hrows Hsp).
  unfold sortPartitions. rewrite Hn1, Hs, Hf.
  rewrite (u64_small (size rows)) by lia.
  rewrite listRows_all
    by (unfold size; rewrite Nat2Z.id; now apply Permutation_length).
  destruct (sorter (data_ st1)) as [Hperm _].
  set (sorted := prefixSort flags (data_ st1)) in *.
  assert (Hall : Permutation sorted rows) by (etransitivity; eauto).
  assert (Hlen : size sorted = size rows).
  { unfold size. f_equal. now apply Permutation_length. }
  unfold computePartitionStartRows.
  cbn [sortedRows_ partitionStartRows_ with_sortedRows].
  rewrite Hp, Hlen. cbn [app].
  destruct (Z.ltb_spec 0 (size rows)); [| lia].
  rewrite (boundaryLoop_wraps sorted).
  - cbn [bind]. eexists _, _. split; [reflexivity |].
    cbn [merge_ spiller_ numRows_ sortedRows_ partitionStartRows_
         with_pool with_partitionStartRows with_sortedRows].
    repeat split; auto.
    unfold drainAll.
    cbn [numRows_ with_pool with_partitionStartRows with_sortedRows].
    rewrite Hn1.
    destruct (Z.to_nat (size rows)) as [| fuel] eqn:Hfuel; [lia |].
    apply drain_wrapped; auto.
  - lia.
  - intros a b Ha Hb.
    apply Hone; eapply Permutation_in; eauto.
Qed.


Lemma memory_run_wraps (cfg : option SpillConfig)
    (sortingOrders : list SortOrder) (pool : Pool)
    (batches : list (list Row)) :
  flags = makeCompareFlags numPartitionKeys sortingOrders ->
  2 ^ 30 < size (concat batches) < 2 ^ 31 ->
  (forall a b, In a (concat batches) -> In b (concat batches) ->
               compareRowsWithKeys a b = false) ->
  exists st1 st2,
    noMoreInput
      (addInputs
         (construct cfg numPartitionKeys sortingOrders pool
            (fun _ => false))
         batches) = Ok st1
    /\ merge_ st1 = None /\ spiller_ st1 = None
    /\ numRows_ st1 = size (concat batches)
    /\ Permutation (sortedRows_ st1) (concat batches)
    /\ partitionStartRows_ st1 = [0; 1 - 2 ^ 30]
    /\ drainAll st1 = (Ok [[]], st2).
Proof.
  intros Hflags Hsize Hone.
  pose proof (Accumulating_addInputs _ batches _ []
                (Accumulating_construct cfg numPartitionKeys sortingOrders
                   pool (fun _ => false))
                ltac:(cbn [app]; lia)) as HA.
  cbn [app] in HA. rewrite <- Hflags in HA.
  set (st := addInputs _ batches) in *.
  apply (noMoreInput_memory_wraps st (concat batches) HA Hsize Hone).
  rewrite ensureSortFits_no_spill.
  - subst st. now rewrite addInputs_no_spill.
  - intros k. subst st.
    destruct (addInputs_frame batches
                (construct cfg numPartitionKeys sortingOrders pool
                   (fun _ => false))) as [_ ->].
    reflexivity.
Qed.


End Runs.

(** *** Loading a partition from the merge stream *)

Lemma keyColumnsDiffer_spec (back next : Row) (remaining : nat) :
  forall i,
    (keyColumnsDiffer back next i remaining = false
     -> forall j, (i <= j < i + remaining)%nat ->
                  compare back j next (equality kNullAsValue) = 0)
    /\ (keyColumnsDiffer back next i remaining = true
        -> exists j, (i <= j < i + remaining)%nat
                     /\ compare back j next (equality kNullAsValue) <> 0).
Proof.
  induction remaining as [| remaining IH]; intros i; cbn [keyColumnsDiffer].
  - split; [intros _ j Hj; lia | discriminate].
  - destruct (Z.eqb_spec (compare back i next (equality kNullAsValue)) 0)
      as [Hz | Hnz].
    + destruct (IH (S i)) as [IHf IHt]. split.
      * intros H j Hj. destruct (Nat.eq_dec j i) as [-> | Hne]; [exact Hz |].
        apply IHf; [exact H | lia].
      * intros H. destruct (IHt H) as (j & Hj & Hc).
        exists j. split; [lia | exact Hc].
    + split; [discriminate |].
      intros _. exists i. split; [lia | exact Hnz].
Qed.

Lemma consecutiveKeysEqual_snoc (n : nat) (front : list Row)
    (back next : Row) :
  consecutiveKeysEqual n (front ++ [back]) ->
  (forall i, (i < n)%nat ->
             compare back i next (equality kNullAsValue) = 0) ->
  consecutiveKeysEqual n ((front ++ [back]) ++ [next]).
Proof.
  intros Hrun Hnext k a b Ha Hb.
  assert (Hlen : length (front ++ [back]) = S (length front))
    by (rewrite length_app; cbn; lia).
  destruct (Nat.lt_ge_cases (S k) (S (length front))) as [Hlt | Hge].
  - rewrite nth_error_app1 in Ha, Hb by lia. now apply (Hrun k).
  - assert (Hk : (S k < length ((front ++ [back]) ++ [next]))%nat)
      by (apply nth_error_Some; congruence).
    rewrite length_app, Hlen in Hk. cbn in Hk.
    assert (k = length front) by lia. subst k.
    rewrite nth_error_app1 in Ha by lia.
    rewrite nth_error_app2, Nat.sub_diag in Ha by lia.
    rewrite nth_error_app2, Hlen, Nat.sub_diag in Hb by lia.
    cbn in Ha, Hb. injection Ha as <-. injection Hb as <-.
    exact Hnext.
Qed.

Lemma loadLoop_spec (n : nat) (stream : list Row) :
  forall buf data,
    consecutiveKeysEqual n buf ->
    exists taken rest,
      loadLoop n stream buf data = (buf ++ taken, data ++ taken, rest)
      /\ stream = taken ++ rest
      /\ consecutiveKeysEqual n (buf ++ taken)
      /\ stoppedAt n (buf ++ taken) rest
      /\ (buf = [] -> stream <> [] -> taken <> []).
Proof.
  induction stream as [| next stream IH]; intros buf data Hrun.
  - exists [], []. cbn. rewrite !app_nil_r.
    repeat split; auto. now left.
  - cbn [loadLoop].
    assert (Hcontinue :
      consecutiveKeysEqual n (buf ++ [next]) ->
      exists taken rest,
        loadLoop n stream (buf ++ [next]) (data ++ [next])
        = (buf ++ taken, data ++ taken, rest)
        /\ next :: stream = taken ++ rest
        /\ consecutiveKeysEqual n (buf ++ taken)
        /\ stoppedAt n (buf ++ taken) rest
        /\ (buf = [] -> next :: stream <> [] -> taken <> [])).
    { intros Hrun'.
      destruct (IH (buf ++ [next]) (data ++ [next]) Hrun')
        as (taken & rest & Heq & Hstream & Hrun'' & Hstop & _).
      exists (next :: taken), rest.
      rewrite <- !app_assoc in Heq, Hrun'', Hstop. cbn in *.
      split; [rewrite Heq, <- (app_assoc data); reflexivity |].
      split; [congruence |].
      repeat split; auto. discriminate. }
    destruct (last_buffered buf) as [[-> ->] | (l & back & -> & ->)].
    + apply Hcontinue. intros [| k] a b Ha Hb; cbn in *; [| destruct k];
        discriminate.
    + destruct (keyColumnsDiffer_spec back next n O) as [Hsame Hdiff].
      destruct (keyColumnsDiffer back next O n).
      * exists [], (next :: stream). rewrite !app_nil_r.
        repeat split; auto.
        -- right. destruct (Hdiff eq_refl) as (i & Hi & Hc).
           exists l, back, next, stream. repeat split; auto.
           exists i. split; [lia | exact Hc].
        -- intros E. symmetry in E. now apply app_cons_not_nil in E.
      * apply Hcontinue. apply consecutiveKeysEqual_snoc; [exact Hrun |].
        intros i Hi. apply (Hsame eq_refl). lia.
Qed.

(** *** Single calls *)

(** X18: on at most 2^30 rows sorted by the partition keys, and a start
    index inside them, [findNextPartitionStartRow] returns what the
    linear scan returns: the smallest index after [start] whose row
    differs from [rows[start]] on the partition keys, or the row count
    when there is none.  Within 2^30 rows the [int] arithmetic of the
    search does not overflow. *)
Theorem findNextPartitionStartRow_linear_scan (rows : list Row)
    (start : Z) :
  strictWeakOrder -> partitionSorted rows ->
  size rows <= 2 ^ 30 -> 0 <= start < size rows ->
  findNextPartitionStartRow rows start = Some (linearScan rows start)
  /\ nextPartitionStart rows start (linearScan rows start).
Proof.
  intros Hswo Hsorted Hbound Hstart. split.
  - now apply findNextPartitionStartRow_scan.
  - now apply linearScan_spec.
Qed.

(** C5: in merge mode [hasNextPartition] drops the old buffer and takes
    rows off the front of the merge stream into the buffer and the
    container, one after the other, each agreeing with the row buffered
    before it on every partition key column under the equality
    comparison with nulls as values; it stops at the end of the stream or
    at the first row that differs from the last buffered one, which
    stays in the stream; and it answers whether the buffer is
    non-empty. *)
Theorem hasNextPartition_loads_one_partition (st : State)
    (stream : list Row) :
  merge_ st = Some stream ->
  let more := fst (hasNextPartition st) in
  let st' := snd (hasNextPartition st) in
  exists rest,
    stream = sortedRows_ st' ++ rest
    /\ merge_ st' = Some rest
    /\ data_ st' = sortedRows_ st'
    /\ consecutiveKeysEqual (numPartitionKeys_ st) (sortedRows_ st')
    /\ stoppedAt (numPartitionKeys_ st) (sortedRows_ st') rest
    /\ (stream <> [] -> sortedRows_ st' <> [])
    /\ more = negb (isEmpty (sortedRows_ st'))
    /\ (more = true <-> sortedRows_ st' <> []).
Proof.
  intros Hm. unfold hasNextPartition. rewrite Hm.
  unfold loadNextPartitionFromSpill.
  destruct (loadLoop_spec (numPartitionKeys_ st) stream [] [])
    as (taken & rest & Heq & Hstream & Hrun & Hstop & Hne).
  { intros [| k] a b Ha; discriminate. }
  rewrite Heq. cbn. exists rest. repeat split; auto.
  - destruct taken; [discriminate | intros _; discriminate].
  - intros Hne'. destruct taken; [congruence | reflexivity].
Qed.

(** C7: when [ensureInputFits] gets as far as asking the pool for a
    larger reservation and the pool refuses, it logs one warning and
    returns; no spill happens, and the container, the row count and the
    spiller are as before, so that [addInput] stores the whole batch. *)
Theorem ensureInputFits_reservation_refused (st : State)
    (input : list Row) (cfg : SpillConfig) (pool' : Pool) :
  spillConfig_ st = Some cfg ->
  size (data_ st) <> 0 ->
  testingSpill_ st (spillChecks_ st) = false ->
  inputFits cfg st (size input) = false ->
  maybeReserve (pool_ st) (data_ st)
    (targetIncrementBytes cfg st (size input)) = (false, pool') ->
  let st' := ensureInputFits st input in
  data_ st' = data_ st /\ numRows_ st' = numRows_ st
  /\ spiller_ st' = spiller_ st /\ merge_ st' = merge_ st
  /\ sortedRows_ st' = sortedRows_ st
  /\ partitionStartRows_ st' = partitionStartRows_ st
  /\ warnings_ st'
     = warnings_ st
       ++ [FailedToReserve (targetIncrementBytes cfg st (size input))
             (usedBytes pool' (data_ st)) (reservedBytes pool' (data_ st))]
  /\ data_ (addInput st input) = data_ st ++ input
  /\ numRows_ (addInput st input) = int32 (numRows_ st + size input)
  /\ spiller_ (addInput st input) = spiller_ st.
Proof.
  intros Hcfg Hdata Hhook Hfits Hreserve st'.
  assert (Heq : st' = with_warnings
                        (with_pool
                           (with_spillChecks st (S (spillChecks_ st)))
                           pool')
                        (warnings_ st
                         ++ [FailedToReserve
                               (targetIncrementBytes cfg st (size input))
                               (usedBytes pool' (data_ st))
                               (reservedBytes pool' (data_ st))])).
  { subst st'. unfold ensureInputFits, testingTriggerSpill.
    rewrite Hcfg, Hhook.
    destruct (Z.eqb_spec (size (data_ st)) 0); [contradiction |].
    change (inputFits cfg (with_spillChecks st (S (spillChecks_ st)))
              (size input))
      with (inputFits cfg st (size input)).
    rewrite Hfits.
    change (targetIncrementBytes cfg
              (with_spillChecks st (S (spillChecks_ st))) (size input))
      with (targetIncrementBytes cfg st (size input)).
    cbn [pool_ data_ with_spillChecks].
    rewrite Hreserve. reflexivity. }
  unfold addInput. rewrite storeRows. fold st'. rewrite Heq. cbn.
  repeat split; reflexivity.
Qed.

(** C8: when no row was ever added, [noMoreInput] returns at once,
    leaving the builder as it was (nothing sorted, no spiller, no merge
    stream), and the first [hasNextPartition] answers false; no check
    fails. *)
Theorem no_rows_no_partition (cfg : option SpillConfig)
    (numPartitionKeys : nat) (sortingOrders : list SortOrder) (pool : Pool)
    (hook : nat -> bool) (batches : list (list Row)) :
  Forall (fun batch => batch = []) batches ->
  let st :=
    addInputs (construct cfg numPartitionKeys sortingOrders pool hook)
      batches in
  noMoreInput st = Ok st
  /\ sortedRows_ st = [] /\ partitionStartRows_ st = []
  /\ spiller_ st = None /\ merge_ st = None
  /\ hasNextPartition st = (false, st).
Proof.
  intros Hempty st.
  assert (Hst : st = construct cfg numPartitionKeys sortingOrders pool hook).
  { subst st. unfold addInputs.
    induction Hempty as [| batch batches -> _ IH]; cbn [fold_left];
      [reflexivity |].
    replace (addInput (construct cfg numPartitionKeys sortingOrders pool
                         hook) [])
      with (construct cfg numPartitionKeys sortingOrders pool hook);
      [exact IH |].
    unfold addInput, ensureInputFits. cbn.
    destruct cfg; reflexivity. }
  rewrite Hst. cbn. repeat split; reflexivity.
Qed.

Lemma boundaryLoop_failures (fuel : nat) (rows : list Row) :
  forall start acc e,
    boundaryLoop fuel rows start acc = Fail e ->
    e = OutOfFuel \/ e = OutOfBounds.
Proof.
  induction fuel as [| fuel IH]; intros start acc e; cbn [boundaryLoop].
  - intros E. injection E as <-. now left.
  - destruct (u64 start <? size rows); [| discriminate].
    destruct (findNextPartitionStartRow rows start) as [next |].
    + apply IH.
    + intros E. injection E as <-. now right.
Qed.

(** C9: the check of [computePartitionStartRows] that the sorted rows are
    not empty cannot fail: [noMoreInput] returns before the sort when
    the row count is zero, and otherwise [sortPartitions] resizes the
    array to the row count before it computes the boundaries.  The sort
    works in place, so it keeps the length of the array. *)
Theorem sorted_rows_check_never_fails (st : State) :
  (forall rows, length (prefixSort (compareFlags_ st) rows) = length rows) ->
  - 2 ^ 31 <= numRows_ st < 2 ^ 31 ->
  (numRows_ st = 0 -> noMoreInput st = Ok st)
  /\ (numRows_ st <> 0 ->
      size (resize (Z.to_nat (u64 (numRows_ st))) (sortedRows_ st) nullRow)
      = u64 (numRows_ st)
      /\ 0 < u64 (numRows_ st)
      /\ sortPartitions st <> Fail SortedRowsEmpty)
  /\ noMoreInput st <> Fail SortedRowsEmpty.
Proof.
  intros Hsort Hrange.
  assert (Hresize : forall n (v : list Row),
             length (resize n v nullRow) = n).
  { intros n v. unfold resize.
    rewrite length_app, length_firstn, repeat_length. lia. }
  assert (Hu : numRows_ st <> 0 -> 0 < u64 (numRows_ st)).
  { intros Hne. unfold u64.
    destruct (Z.lt_ge_cases (numRows_ st) 0) as [Hneg | Hpos].
    - replace (numRows_ st) with (numRows_ st + 2 ^ 64 + -1 * 2 ^ 64) by lia.
      rewrite Z_mod_plus_full, Z.mod_small; lia.
    - rewrite Z.mod_small; lia. }
  assert (Hsp : forall s, compareFlags_ s = compareFlags_ st ->
                  numRows_ s = numRows_ st -> numRows_ st <> 0 ->
                  sortPartitions s <> Fail SortedRowsEmpty).
  { intros s Hf Hn Hne. unfold sortPartitions, computePartitionStartRows.
    cbn [sortedRows_ with_sortedRows partitionStartRows_].
    set (n := Z.to_nat (u64 (numRows_ s))).
    assert (Hlen : size (prefixSort (compareFlags_ s)
                           (listRows (data_ s) n
                              (resize n (sortedRows_ s) nullRow)))
                   = u64 (numRows_ st)).
    { unfold size. rewrite Hf, Hsort. unfold listRows.
      rewrite length_app, length_skipn, Hresize, length_firstn.
      subst n. rewrite Hn. specialize (Hu Hne). lia. }
    rewrite Hlen.
    destruct (Z.ltb_spec 0 (u64 (numRows_ st))); [| specialize (Hu Hne); lia].
    match goal with |- context [boundaryLoop ?f ?r ?z ?acc] =>
      pose proof (boundaryLoop_failures f r z acc) as Hloop;
      destruct (boundaryLoop f r z acc) as [starts | e]
    end; cbn; [discriminate |].
    intros E. injection E as ->.
    destruct (Hloop _ eq_refl); discriminate. }
  split; [apply noMoreInput_empty |].
  split.
  - intros Hne. split; [| split; [now apply Hu | now apply Hsp]].
    unfold size. rewrite Hresize. specialize (Hu Hne). lia.
  - unfold noMoreInput.
    destruct (Z.eqb_spec (numRows_ st) 0) as [Hz | Hne]; [discriminate |].
    set (st1 := ensureSortFits st).
    assert (Hframe : compareFlags_ st1 = compareFlags_ st
                     /\ numRows_ st1 = numRows_ st).
    { subst st1. unfold ensureSortFits, testingTriggerSpill.
      rewrite ?spill_eq. guard_cases; cbn; auto. }
    destruct Hframe as [Hf Hn].
    destruct (spiller_ st1).
    + destruct (merge_ (spill st1)); cbn; discriminate.
    + pose proof (Hsp st1 Hf Hn Hne) as Hno.
      destruct (sortPartitions st1); cbn; [discriminate | congruence].
Qed.

(** C10: in merge mode [nextPartition] leaves the builder as it found
    it: the merge stream, the container and the buffer are untouched, and
    a second call returns the view of the first; it is [hasNextPartition]
    that moves the stream forward, past the rows it buffers. *)
Theorem nextPartition_merge_mode_reads_only (st : State)
    (stream : list Row) :
  merge_ st = Some stream ->
  snd (nextPartition st) = st
  /\ (sortedRows_ st <> [] -> fst (nextPartition st) = Ok (sortedRows_ st))
  /\ fst (nextPartition (snd (nextPartition st))) = fst (nextPartition st)
  /\ exists rest,
       merge_ (snd (hasNextPartition st)) = Some rest
       /\ stream = sortedRows_ (snd (hasNextPartition st)) ++ rest.
Proof.
  intros Hm.
  assert (Hsame : snd (nextPartition st) = st).
  { unfold nextPartition. rewrite Hm.
    destruct (isEmpty (sortedRows_ st)); reflexivity. }
  split; [exact Hsame |].
  split.
  { intros Hne. unfold nextPartition. rewrite Hm.
    destruct (sortedRows_ st); [congruence | reflexivity]. }
  split; [now rewrite Hsame |].
  unfold hasNextPartition. rewrite Hm.
  unfold loadNextPartitionFromSpill.
  destruct (loadLoop_spec (numPartitionKeys_ st) stream [] [])
    as (taken & rest & Heq & Hstream & _).
  { intros [| k] a b Ha; discriminate. }
  rewrite Heq. cbn. exists rest. auto.
Qed.

(** *** Further properties: the compare flags *)

(** *** Further properties: the search on any rows *)

Section SearchAnyRows.

Variable rows : list Row.
Hypothesis rows_bound : size rows <= 2 ^ 30.

Lemma probe_in_range (fuel : nat) (left distance lastPosition : Z) :
  0 <= left < lastPosition -> lastPosition <= size rows ->
  1 <= distance < 2 ^ 31 -> Z.quot distance 2 < lastPosition - left ->
  Z.max 0 (lastPosition - left - distance) < Z.of_nat fuel ->
  exists distance' lastPosition',
    probe fuel rows left distance lastPosition
    = Some (distance', lastPosition')
    /\ distance <= distance' < 2 ^ 31
    /\ left + Z.quot distance' 2 < lastPosition' <= lastPosition
    /\ ((lastPosition' = left + distance'
         /\ distance' < lastPosition - left)
        \/ (lastPosition' = lastPosition
            /\ lastPosition - left <= distance')).
Proof.
  revert distance.
  induction fuel as [| fuel IH]; intros distance Hleft Hlast Hd Hhalf Hfuel;
    [lia |].
  cbn [probe].
  rewrite (u64_small distance) by lia.
  rewrite (u64_small (lastPosition - left)) by lia.
  assert (Hq : 0 <= Z.quot distance 2 <= distance) by
    (split; [apply Z.quot_pos; lia | apply Z.quot_le_upper_bound; lia]).
  assert (Hq' : Z.quot distance 2 < distance).
  { apply Z.quot_lt; lia. }
  destruct (Z.ltb_spec distance (lastPosition - left)) as [Hlt | Hge].
  - rewrite (int32_small (left + distance)) by lia.
    rewrite (u64_small (left + distance)) by lia.
    destruct rows as [| r0 rows'] eqn:Hrows;
      [unfold size in Hlast; cbn in Hlast; lia |].
    rewrite <- Hrows in *.
    rewrite (vectorAt_nth rows left r0) by lia.
    rewrite (vectorAt_nth rows (left + distance) r0) by lia.
    destruct (compareRowsWithKeys _ _).
    + exists distance, (left + distance). repeat split; try lia.
    + rewrite (int32_small (distance * 2)) by lia.
      destruct (IH (distance * 2)) as (d' & lp' & Heq & Hd' & Hh' & Hc);
        try lia.
      { rewrite Z.quot_mul by lia. lia. }
      exists d', lp'. repeat split; try lia. exact Heq.
  - exists distance, lastPosition. repeat split; try lia.
Qed.

Lemma search_in_range (fuel : nat) (left lastPosition : Z) :
  0 <= left < lastPosition -> lastPosition <= size rows ->
  lastPosition - left <= Z.of_nat fuel ->
  exists p, search fuel rows left (int32 (left + 1)) lastPosition = Some p
            /\ left < p <= lastPosition.
Proof.
  revert left lastPosition.
  induction fuel as [| fuel IH]; intros left lastPosition Hleft Hlast Hfuel;
    [lia |].
  cbn [search].
  rewrite (int32_small (left + 1)) by lia.
  rewrite (u64_small (left + 1)) by lia.
  destruct (Z.ltb_spec (left + 1) lastPosition) as [Hlt | Hge].
  - destruct (probe_in_range (S (length rows)) left 1 lastPosition)
      as (d' & lp' & Heq & Hd' & Hh' & Hc); try lia.
    { cbn. lia. }
    { unfold size in *. lia. }
    rewrite Heq.
    assert (Hq : 0 <= Z.quot d' 2 <= d') by
      (split; [apply Z.quot_pos; lia | apply Z.quot_le_upper_bound; lia]).
    rewrite (int32_small (left + Z.quot d' 2)) by lia.
    destruct (IH (left + Z.quot d' 2) lp') as (p & Hp & Hrange); try lia.
    { destruct Hc as [[-> Hc] | [-> Hc]]; [lia |].
      assert (1 <= Z.quot d' 2) by (apply Z.quot_le_lower_bound; lia).
      lia. }
    exists p. split; [exact Hp | lia].
  - exists (left + 1). split; [reflexivity | lia].
Qed.

End SearchAnyRows.

(** X2: whatever the order of the rows and whatever the comparison
    answers, [findNextPartitionStartRow] reads inside the array, ends,
    and returns an index after [start] and at most the row count. *)
Theorem findNextPartitionStartRow_in_range (rows : list Row) (start : Z) :
  size rows <= 2 ^ 30 -> 0 <= start < size rows ->
  exists p, findNextPartitionStartRow rows start = Some p
            /\ start < p <= size rows.
Proof.
  intros Hbound Hstart. unfold findNextPartitionStartRow.
  rewrite (u64_small (size rows)) by (unfold size in *; lia).
  apply (search_in_range rows Hbound); try lia.
  unfold size in *. lia.
Qed.

Lemma boundaryLoop_in_range (rows : list Row) :
  size rows <= 2 ^ 30 ->
  forall fuel start acc,
    0 <= start <= size rows -> size rows - start < Z.of_nat fuel ->
    exists bs, boundaryLoop fuel rows start acc = Ok (acc ++ bs)
               /\ StronglySorted Z.lt (start :: bs)
               /\ last (start :: bs) 0 = size rows
               /\ size bs <= size rows - start.
Proof.
  intros Hbound.
  induction fuel as [| fuel IH]; intros start acc Hstart Hfuel; [lia |].
  cbn [boundaryLoop].
  rewrite (u64_small start) by (unfold size in *; lia).
  destruct (Z.ltb_spec start (size rows)) as [Hlt | Hge].
  - destruct (findNextPartitionStartRow_in_range rows start Hbound
                ltac:(lia)) as (p & Hp & Hrange).
    rewrite Hp.
    destruct (IH p (acc ++ [p])) as (bs & Heq & Hsorted & Hlast & Hsize);
      try lia.
    exists (p :: bs). rewrite Heq, <- app_assoc.
    split; [reflexivity |].
    split; [| split; [exact Hlast | rewrite size_cons; lia]].
    constructor; [exact Hsorted |].
    constructor; [lia |].
    inversion Hsorted as [| ? ? _ Hall]; subst.
    eapply Forall_impl; [| exact Hall]. cbn. intros b Hb. lia.
  - exists []. rewrite app_nil_r.
    split; [reflexivity |].
    split; [repeat constructor |].
    split; [cbn; lia | change (size (@nil Z)) with 0; lia].
Qed.

(** X3: on any non-empty array of sorted-row handles, in whatever order,
    [computePartitionStartRows] succeeds; it appends to the boundary list
    it finds a 0 and then strictly increasing offsets that end with the
    row count, at most one per row. *)
Theorem computePartitionStartRows_well_formed (st : State) :
  0 < size (sortedRows_ st) <= 2 ^ 30 ->
  exists bs,
    computePartitionStartRows st
    = Ok (with_partitionStartRows st (partitionStartRows_ st ++ 0 :: bs))
    /\ StronglySorted Z.lt (0 :: bs)
    /\ last (0 :: bs) 0 = size (sortedRows_ st)
    /\ 1 <= size bs <= size (sortedRows_ st).
Proof.
  intros Hsize. unfold computePartitionStartRows.
  destruct (Z.ltb_spec 0 (size (sortedRows_ st))); [| lia].
  destruct (boundaryLoop_in_range (sortedRows_ st) ltac:(lia)
              (S (length (sortedRows_ st))) 0 (partitionStartRows_ st ++ [0]))
    as (bs & Heq & Hsorted & Hlast & Hcount).
  { lia. }
  { unfold size in *. lia. }
  rewrite Heq. cbn [bind]. rewrite <- app_assoc. cbn [app].
  exists bs. repeat split; auto; try lia.
  destruct bs; [cbn in Hlast; lia | rewrite size_cons].
  pose proof (size_nonneg bs). lia.
Qed.

(** X4: on at most 2^30 sorted rows, the search started from any row of
    a partition returns the end of that partition. *)
Theorem findNextPartitionStartRow_same_partition (rows : list Row)
    (start inside p : Z) :
  strictWeakOrder -> partitionSorted rows ->
  size rows <= 2 ^ 30 -> 0 <= start < size rows ->
  findNextPartitionStartRow rows start = Some p ->
  start <= inside < p ->
  findNextPartitionStartRow rows inside = Some p.
Proof.
  intros Hswo Hsorted Hbound Hstart Hfind Hinside.
  rewrite (findNextPartitionStartRow_scan rows start Hswo Hsorted Hbound
             Hstart) in Hfind.
  injection Hfind as <-.
  pose proof (linearScan_spec rows start Hstart) as Hspec.
  pose proof (sorted_block rows start _ Hswo Hsorted ltac:(lia) Hspec)
    as Hblock.
  destruct Hspec as (Hrange & _).
  apply findNextPartitionStartRow_block; auto; try lia.
  intros i j a b Hi Hj. apply Hblock; lia.
Qed.

(** X5: on at most 2^30 rows, when no row from [start] on orders before
    a later one, all of them are one partition and the search returns
    the row count; the comparison need not be an order. *)
Theorem findNextPartitionStartRow_one_partition (rows : list Row)
    (start : Z) :
  size rows <= 2 ^ 30 -> 0 <= start < size rows ->
  (forall i j a b, start <= i -> i <= j ->
     vectorAt rows i = Some a -> vectorAt rows j = Some b ->
     compareRowsWithKeys a b = false) ->
  findNextPartitionStartRow rows start = Some (size rows).
Proof.
  intros Hbound Hstart Hsame.
  apply findNextPartitionStartRow_block; auto; try lia.
  intros i j a b Hi Hj Ha Hb.
  rewrite (Hsame i j a b) by (auto; lia).
  symmetry. apply Z.leb_gt. lia.
Qed.

(** X6: when the row after [start] orders after it, the search returns
    [start + 1], whatever the rows further on are. *)
Theorem findNextPartitionStartRow_next_row_differs (rows : list Row)
    (start : Z) (a b : Row) :
  size rows < 2 ^ 31 ->
  vectorAt rows start = Some a -> vectorAt rows (start + 1) = Some b ->
  compareRowsWithKeys a b = true ->
  findNextPartitionStartRow rows start = Some (start + 1).
Proof.
  intros Hbound Ha Hb Hab.
  pose proof (vectorAt_range _ _ _ Ha) as Hra.
  pose proof (vectorAt_range _ _ _ Hb) as Hrb.
  unfold findNextPartitionStartRow.
  rewrite (u64_small (size rows)) by lia.
  rewrite (int32_small (start + 1)) by lia.
  destruct rows as [| r rows'] eqn:Hrows;
    [unfold size in Hra; cbn in Hra; lia |].
  rewrite <- Hrows in *.
  assert (Hlen : length rows = S (length rows')) by now rewrite Hrows.
  cbn [search]. rewrite Hlen. cbn [probe].
  rewrite (u64_small (start + 1)) by lia.
  destruct (Z.ltb_spec (start + 1) (size rows)); [| lia].
  rewrite (u64_small 1) by lia.
  rewrite (u64_small (size rows - start)) by lia.
  destruct (Z.ltb_spec 1 (size rows - start)); [| lia].
  rewrite (int32_small (start + 1)) by lia.
  rewrite Ha, Hb, Hab.
  change (Z.quot 1 2) with 0. rewrite Z.add_0_r.
  rewrite (int32_small start) by lia.
  rewrite (int32_small (start + 1)) by lia.
  cbn [search].
  rewrite !(u64_small (start + 1)) by lia.
  destruct (Z.ltb_spec (start + 1) (start + 1)); [lia | reflexivity].
Qed.

(** *** Further properties: the guard and the spill *)

Ltac five_cases := split; [| split; [| split; [| split]]].

(** X7: [ensureInputFits] never changes the row count or the merge
    stream.  When spilling is enabled, the container holds rows and
    the test hook fires, it is a spill, after the evaluation of the hook
    has been counted; in every other case it leaves the container and
    the spiller alone.  It logs a warning only when it got as far as
    the reservation and the pool refused it. *)
Theorem ensureInputFits_cases (st : State) (input : list Row) :
  let st' := ensureInputFits st input in
  numRows_ st' = numRows_ st /\ merge_ st' = merge_ st
  /\ (spillConfig_ st <> None -> size (data_ st) <> 0 ->
      testingSpill_ st (spillChecks_ st) = true ->
      st' = spill (with_spillChecks st (S (spillChecks_ st))))
  /\ (spillConfig_ st = None \/ size (data_ st) = 0
      \/ testingSpill_ st (spillChecks_ st) = false ->
      data_ st' = data_ st /\ spiller_ st' = spiller_ st)
  /\ (warnings_ st' = warnings_ st
      \/ exists cfg pool',
           spillConfig_ st = Some cfg /\ size (data_ st) <> 0
           /\ testingSpill_ st (spillChecks_ st) = false
           /\ inputFits cfg st (size input) = false
           /\ maybeReserve (pool_ st) (data_ st)
                (targetIncrementBytes cfg st (size input)) = (false, pool')
           /\ warnings_ st'
              = warnings_ st
                ++ [FailedToReserve
                      (targetIncrementBytes cfg st (size input))
                      (usedBytes pool' (data_ st))
                      (reservedBytes pool' (data_ st))]).
Proof.
  cbn zeta. unfold ensureInputFits, testingTriggerSpill.
  destruct (spillConfig_ st) as [cfg |] eqn:Hcfg;
    [| five_cases; auto; intros; congruence].
  destruct (Z.eqb_spec (size (data_ st)) 0) as [Hz | Hnz];
    [five_cases; auto; intros; congruence |].
  destruct (testingSpill_ st (spillChecks_ st)) eqn:Hhook.
  - rewrite spill_eq. cbn. five_cases; auto.
    intros [H | [H | H]]; congruence.
  - change (inputFits cfg (with_spillChecks st (S (spillChecks_ st)))
              (size input))
      with (inputFits cfg st (size input)).
    change (targetIncrementBytes cfg
              (with_spillChecks st (S (spillChecks_ st))) (size input))
      with (targetIncrementBytes cfg st (size input)).
    cbn [pool_ data_ with_spillChecks].
    destruct (inputFits cfg st (size input)) eqn:Hfits;
      [cbn; five_cases; auto; intros; congruence |].
    destruct (maybeReserve (pool_ st) (data_ st)
                (targetIncrementBytes cfg st (size input)))
      as [reserved pool'] eqn:Hreserve.
    destruct reserved; cbn; five_cases; auto; try (intros; congruence).
    right. exists cfg, pool'. repeat split; auto.
Qed.

(** X8: when spilling is enabled, the container holds rows and the test
    hook fires, [addInput] first spills: the rows held so far become a
    new run of the spiller, after the runs already written, and the
    container holds the new batch alone. *)
Theorem addInput_forced_spill (st : State) (input : list Row)
    (cfg : SpillConfig) :
  spillConfig_ st = Some cfg ->
  size (data_ st) <> 0 ->
  testingSpill_ st (spillChecks_ st) = true ->
  let st' := addInput st input in
  data_ st' = input
  /\ spiller_ st'
     = Some (spilledRuns st ++ [spillRun (compareFlags_ st) (data_ st)])
  /\ numRows_ st' = int32 (numRows_ st + size input)
  /\ pool_ st' = release (pool_ st)
  /\ warnings_ st' = warnings_ st
  /\ spillChecks_ st' = S (spillChecks_ st).
Proof.
  intros Hcfg Hdata Hhook. cbn zeta. unfold addInput. rewrite storeRows.
  unfold ensureInputFits, testingTriggerSpill. rewrite Hcfg, Hhook.
  destruct (Z.eqb_spec (size (data_ st)) 0); [contradiction |].
  rewrite spill_eq. cbn. repeat split; reflexivity.
Qed.

(** *** Further properties: the finalisation *)

(** X9: [noMoreInput] called again on a builder that has opened its
    merge stream fails the check that there is no merge stream yet. *)
Theorem noMoreInput_twice_merge_mode (st : State) :
  numRows_ st <> 0 -> spiller_ st <> None -> merge_ st <> None ->
  noMoreInput st = Fail MergeNotNull.
Proof.
  intros Hrows Hsp Hm. unfold noMoreInput.
  destruct (Z.eqb_spec (numRows_ st) 0); [contradiction |].
  assert (Hframe : spiller_ (ensureSortFits st) <> None
                   /\ merge_ (ensureSortFits st) = merge_ st).
  { unfold ensureSortFits, testingTriggerSpill. rewrite ?spill_eq.
    destruct (spillConfig_ st); [| auto].
    destruct (testingSpill_ st (spillChecks_ st)).
    - cbn. split; [discriminate | reflexivity].
    - cbn [spiller_ with_spillChecks].
      destruct (spiller_ st) eqn:E; [| congruence]. cbn.
      rewrite E. split; [discriminate | reflexivity]. }
  destruct Hframe as [Hsp1 Hm1].
  destruct (spiller_ (ensureSortFits st)); [| contradiction].
  rewrite spill_eq. cbn [merge_ with_pool with_data with_spiller].
  rewrite Hm1. destruct (merge_ st); [reflexivity | contradiction].
Qed.

(** *** Further properties: the partition iterator *)

(** X10: in merge mode two calls of [hasNextPartition] in a row load two
    consecutive stretches of the merge stream; the rows of the first are
    then neither in the buffer, nor in the container, nor in the
    stream. *)
Theorem hasNextPartition_twice_merge_mode (st : State)
    (stream : list Row) :
  merge_ st = Some stream ->
  let st1 := snd (hasNextPartition st) in
  let st2 := snd (hasNextPartition st1) in
  exists rest,
    stream = sortedRows_ st1 ++ sortedRows_ st2 ++ rest
    /\ merge_ st2 = Some rest
    /\ data_ st2 = sortedRows_ st2
    /\ (sortedRows_ st2 = [] -> rest = []).
Proof.
  intros Hm. cbn zeta.
  assert (Hload : forall s str,
            merge_ s = Some str ->
            exists rest,
              str = sortedRows_ (snd (hasNextPartition s)) ++ rest
              /\ merge_ (snd (hasNextPartition s)) = Some rest
              /\ data_ (snd (hasNextPartition s))
                 = sortedRows_ (snd (hasNextPartition s))
              /\ (sortedRows_ (snd (hasNextPartition s)) = []
                  -> rest = [])).
  { intros s str Hs. unfold hasNextPartition. rewrite Hs.
    unfold loadNextPartitionFromSpill.
    destruct (loadLoop_spec (numPartitionKeys_ s) str [] [])
      as (taken & rest & Heq & Hstr & _ & _ & Hne).
    { intros [| k] x y Hx; discriminate. }
    rewrite Heq. cbn. exists rest. repeat split; auto.
    intros ->. cbn in Hstr. subst str.
    destruct rest; [reflexivity |].
    exfalso. apply Hne; [reflexivity | discriminate | reflexivity]. }
  destruct (Hload st stream Hm) as (rest1 & Hs1 & Hm1 & _).
  destruct (Hload _ rest1 Hm1) as (rest2 & Hs2 & Hm2 & Hd2 & He2).
  exists rest2. repeat split; auto. now rewrite <- Hs2.
Qed.

(** X11: with no partition keys the merge mode takes the whole stream
    as one partition. *)
Theorem hasNextPartition_no_partition_keys (st : State)
    (stream : list Row) :
  merge_ st = Some stream -> numPartitionKeys_ st = O ->
  let st' := snd (hasNextPartition st) in
  sortedRows_ st' = stream /\ data_ st' = stream /\ merge_ st' = Some []
  /\ fst (hasNextPartition st) = negb (isEmpty stream).
Proof.
  intros Hm Hk. cbn zeta. unfold hasNextPartition. rewrite Hm.
  unfold loadNextPartitionFromSpill. rewrite Hk.
  assert (Hall : forall str buf data,
            loadLoop O str buf data = (buf ++ str, data ++ str, [])).
  { induction str as [| next str IH]; intros buf data; cbn [loadLoop].
    - now rewrite !app_nil_r.
    - destruct (last (map Some buf) None); cbn [keyColumnsDiffer];
        rewrite IH, <- !app_assoc; reflexivity. }
  rewrite Hall. cbn. auto.
Qed.

(** X12: in memory mode, once the cursor is on the last partition or
    past it, [nextPartition] fails, yet it has moved the cursor one
    further; [hasNextPartition] answers false before and after. *)
Theorem nextPartition_exhausted_memory_mode (st : State) :
  merge_ st = None ->
  2 <= size (partitionStartRows_ st) < 2 ^ 31 ->
  size (partitionStartRows_ st) - 2 <= currentPartition_ st < 2 ^ 31 - 1 ->
  nextPartition st
  = (Fail AllWindowPartitionsConsumed,
     with_currentPartition st (currentPartition_ st + 1))
  /\ fst (hasNextPartition st) = false
  /\ fst (hasNextPartition (snd (nextPartition st))) = false.
Proof.
  intros Hm Hsize Hc.
  assert (Hnext : nextPartition st
                  = (Fail AllWindowPartitionsConsumed,
                     with_currentPartition st (currentPartition_ st + 1))).
  { unfold nextPartition. rewrite Hm.
    destruct (partitionStartRows_ st) as [| b bs] eqn:Hstarts;
      [unfold size in Hsize; cbn in Hsize; lia |].
    cbn [isEmpty].
    cbn [currentPartition_ with_currentPartition partitionStartRows_].
    rewrite Hstarts.
    rewrite (int32_small (currentPartition_ st + 1)) by lia.
    rewrite !u64_small by lia.
    destruct (Z.leb_spec (currentPartition_ st + 1) (size (b :: bs) - 2));
      [lia | reflexivity]. }
  assert (Hhas : forall s, merge_ s = None ->
            partitionStartRows_ s = partitionStartRows_ st ->
            size (partitionStartRows_ st) - 2 <= currentPartition_ s ->
            fst (hasNextPartition s) = false).
  { intros s Hs Hstarts Hcs. unfold hasNextPartition. rewrite Hs, Hstarts.
    cbn [fst]. rewrite int32_u64 by lia.
    destruct (Z.ltb_spec (currentPartition_ s)
                (size (partitionStartRows_ st) - 2)); [lia |].
    apply andb_false_r. }
  split; [exact Hnext |]. split.
  - apply Hhas; auto. lia.
  - rewrite Hnext. cbn [snd]. apply Hhas; cbn; auto. lia.
Qed.

(** *** Further properties: a run with spilling disabled *)

Lemma addInput_spilling_disabled (st : State) (input : list Row) :
  spillConfig_ st = None ->
  addInput st input
  = with_numRows (with_data st (data_ st ++ input))
      (int32 (numRows_ st + size input)).
Proof.
  intros Hcfg. unfold addInput, ensureInputFits. rewrite Hcfg.
  now rewrite storeRows.
Qed.

Lemma addInputs_spilling_disabled (batches : list (list Row)) :
  forall st,
    spillConfig_ st = None ->
    let st' := addInputs st batches in
    spillConfig_ st' = None
    /\ data_ st' = data_ st ++ concat batches
    /\ spiller_ st' = spiller_ st /\ warnings_ st' = warnings_ st
    /\ spillChecks_ st' = spillChecks_ st /\ pool_ st' = pool_ st.
Proof.
  unfold addInputs.
  induction batches as [| input batches IH]; intros st Hcfg;
    cbn [fold_left concat].
  - rewrite app_nil_r. auto 6.
  - rewrite addInput_spilling_disabled by exact Hcfg.
    match goal with |- context [fold_left addInput batches ?s] =>
      destruct (IH s) as (H1 & H2 & H3 & H4 & H5 & H6); [exact Hcfg |]
    end.
    cbn zeta in *. rewrite H1, H2, H3, H4, H5, H6. cbn.
    rewrite <- app_assoc. auto 6.
Qed.

(** X17: with spilling disabled, a run keeps the batches in the
    container in the order they came, never sets up a spiller, never
    evaluates the test hook, never asks the pool for a reservation and
    never logs a warning; its finalisation asks for nothing either and
    is the sort in memory. *)
Theorem spilling_disabled_run (numPartitionKeys : nat)
    (sortingOrders : list SortOrder) (pool : Pool) (hook : nat -> bool)
    (batches : list (list Row)) :
  let st :=
    addInputs (construct None numPartitionKeys sortingOrders pool hook)
      batches in
  data_ st = concat batches
  /\ spiller_ st = None /\ warnings_ st = []
  /\ spillChecks_ st = O /\ pool_ st = pool
  /\ ensureSortFits st = st
  /\ noMoreInput st
     = if numRows_ st =? 0 then Ok st
       else st3 <- sortPartitions st ;;
            Ok (with_pool st3 (release (pool_ st3))).
Proof.
  cbn zeta.
  destruct (addInputs_spilling_disabled batches
              (construct None numPartitionKeys sortingOrders pool hook)
              eq_refl) as (Hcfg & Hdata & Hsp & Hw & Hchecks & Hpool).
  cbn in Hdata, Hsp, Hw, Hchecks, Hpool.
  set (st := addInputs _ batches) in *.
  assert (Hfits : ensureSortFits st = st)
    by (unfold ensureSortFits; now rewrite Hcfg).
  repeat split; auto.
  unfold noMoreInput. rewrite Hfits, Hsp. reflexivity.
Qed.

End SortWindowBuild.

(** ** The concrete setting meets what the builder expects *)

Module KeyedFacts.

Lemma order : strictWeakOrder (collaborators := Keyed.collaborators).
Proof.
  split; cbn; unfold Keyed.before.
  - intros a b H. apply Z.ltb_lt in H. apply Z.ltb_ge. lia.
  - intros a b c H. apply Z.ltb_lt in H.
    destruct (Z.ltb_spec (fst a) (fst b)); [now left |].
    right. apply Z.ltb_lt. lia.
Qed.

Lemma insert_permutation (r : Z * Z) (rows : list (Z * Z)) :
  Permutation (Keyed.insert r rows) (r :: rows).
Proof.
  induction rows as [| x rows IH]; cbn; [reflexivity |].
  destruct (Keyed.before r x); [reflexivity |].
  etransitivity; [apply perm_skip, IH | apply perm_swap].
Qed.

Lemma insert_sorted (r : Z * Z) (rows : list (Z * Z)) :
  partitionSorted (collaborators := Keyed.collaborators) rows ->
  partitionSorted (collaborators := Keyed.collaborators)
    (Keyed.insert r rows).
Proof.
  unfold partitionSorted. cbn.
  induction 1 as [| x rows Hs IH Hall]; cbn.
  - repeat constructor.
  - destruct (Keyed.before r x) eqn:E.
    + constructor; [now constructor |].
      unfold Keyed.before in *. apply Z.ltb_lt in E.
      constructor; [apply Z.ltb_ge; lia |].
      eapply Forall_impl; [| exact Hall]. cbn. intros y Hy.
      apply Z.ltb_ge in Hy. apply Z.ltb_ge. lia.
    + constructor; [exact IH |].
      eapply Permutation_Forall;
        [apply Permutation_sym, insert_permutation |].
      constructor; [| exact Hall].
      unfold Keyed.before in *. apply Z.ltb_ge in E. apply Z.ltb_ge. lia.
Qed.

Lemma sort_contract (flags : list CompareFlags) :
  sortsByPartitionKeys (collaborators := Keyed.collaborators)
    (Keyed.sort flags).
Proof.
  intros rows. unfold Keyed.sort.
  induction rows as [| r rows [IHp IHs]]; cbn [fold_right].
  - split; [reflexivity | constructor].
  - split.
    + etransitivity; [apply insert_permutation | now apply perm_skip].
    + now apply insert_sorted.
Qed.

Lemma merge_contract (flags : list CompareFlags) :
  mergesByPartitionKeys (collaborators := Keyed.collaborators)
    (Keyed.merge flags).
Proof.
  intros runs. destruct (sort_contract flags (concat runs)) as [Hp Hs].
  split; [exact Hp | intros _; exact Hs].
Qed.

Lemma equality_contract :
  equalityMatchesOrder (collaborators := Keyed.collaborators) 1.
Proof.
  intros a b. unfold keysDiffer. cbn. unfold Keyed.before.
  destruct (Z.eqb_spec (fst a - fst b) 0);
    destruct (Z.ltb_spec (fst a) (fst b));
    destruct (Z.ltb_spec (fst b) (fst a)); cbn; auto; lia.
Qed.

Lemma onePartition_size : size Keyed.onePartition = 2 ^ 30 + 1.
Proof.
  unfold size, Keyed.onePartition. rewrite repeat_length. lia.
Qed.

Lemma onePartition_range : 2 ^ 30 < size Keyed.onePartition < 2 ^ 31.
Proof. rewrite onePartition_size. lia. Qed.


Lemma onePartition_same_keys (a b : Z * Z) :
  In a Keyed.onePartition -> In b Keyed.onePartition ->
  Keyed.before a b = false.
Proof.
  unfold Keyed.onePartition. intros Ha Hb.
  apply repeat_spec in Ha, Hb. subst a b. reflexivity.
Qed.

Lemma repeat_sorted (r : Z * Z) (n : nat) :
  partitionSorted (collaborators := Keyed.collaborators) (repeat r n).
Proof.
  induction n as [| n IH]; cbn [repeat]; constructor; [exact IH |].
  apply Forall_forall. intros b Hb. apply repeat_spec in Hb. subst b.
  apply Z.ltb_irrefl.
Qed.

Lemma onePartition_batch :
  concat [Keyed.onePartition] = Keyed.onePartition.
Proof. cbn [concat]. apply app_nil_r. Qed.

End KeyedFacts.

(** ** The builder on small inputs *)

(** The search on a single row, on one partition over all the rows, and
    on rows that are each a partition of their own. *)
Example find_single_row :
  findNextPartitionStartRow (collaborators := Keyed.collaborators)
    [(7, 0)] 0 = Some 1.
Proof. reflexivity. Qed.

Example find_one_partition :
  map (findNextPartitionStartRow (collaborators := Keyed.collaborators)
         [(7, 0); (7, 1); (7, 2); (7, 3); (7, 4)])
    [0; 1; 2; 3; 4]
  = [Some 5; Some 5; Some 5; Some 5; Some 5].
Proof. vm_compute. reflexivity. Qed.

Example find_every_row_a_partition :
  map (findNextPartitionStartRow (collaborators := Keyed.collaborators)
         [(1, 0); (2, 0); (3, 0); (4, 0)])
    [0; 1; 2; 3]
  = [Some 1; Some 2; Some 3; Some 4].
Proof. vm_compute. reflexivity. Qed.

(** The keys A A B B B C, given out of order and without sort keys: the
    boundaries are 0 2 5 6, and the three partitions have 2, 3 and 1
    rows. *)
Example boundaries_AABBBC :
  match noMoreInput
          (addInputs
             (construct (collaborators := Keyed.collaborators) None 1 []
                tt (fun _ => false))
             [[(2, 0); (1, 0); (2, 1)]; [(3, 0); (2, 2); (1, 1)]]) with
  | Ok st =>
      partitionStartRows_ st = [0; 2; 5; 6]
      /\ match fst (drainAll st) with
         | Ok parts => map size parts = [2; 3; 1]
         | Fail _ => False
         end
  | Fail _ => False
  end.
Proof. vm_compute. split; reflexivity. Qed.

(** ** A partition of more than 2^30 rows

    [Keyed.onePartition] holds 2^30 + 1 rows of one partition key: a row
    count that [vector_size_t] holds, and at which [distance *= 2] in
    [findNextPartitionStartRow] leaves the range of [int].  The four
    results below are the one defect, seen from the search, from the
    boundary list and from two whole runs. *)

(** C1: on the sorted rows of [Keyed.onePartition], a single partition of
    2^30 + 1 rows, the reference linear scan from row 0 gives the row
    count, and [findNextPartitionStartRow] gives [1 - 2^30]: it does not
    match the scan. *)
Theorem findNextPartitionStartRow_wraps_on_large_partition :
  partitionSorted (collaborators := Keyed.collaborators) Keyed.onePartition
  /\ size Keyed.onePartition = 2 ^ 30 + 1
  /\ linearScan (collaborators := Keyed.collaborators) Keyed.onePartition 0
     = 2 ^ 30 + 1
  /\ findNextPartitionStartRow (collaborators := Keyed.collaborators)
       Keyed.onePartition 0
     = Some (1 - 2 ^ 30).
Proof.
  pose proof KeyedFacts.onePartition_size as Hsize.
  split; [apply KeyedFacts.repeat_sorted |].
  split; [exact Hsize |].
  split.
  - rewrite <- Hsize.
    apply (linearScan_one_partition (collaborators := Keyed.collaborators));
      [exact KeyedFacts.onePartition_range
      | exact KeyedFacts.onePartition_same_keys].
  - apply (findNextPartitionStartRow_wraps
             (collaborators := Keyed.collaborators));
      [exact KeyedFacts.onePartition_range
      | exact KeyedFacts.onePartition_same_keys].
Qed.

(** C2: the batch [Keyed.onePartition] finalised in memory mode.  The
    boundary list is [0; 1 - 2^30]: it does not end with the row count,
    2^30 + 1, and it is not increasing. *)
Theorem boundary_list_wraps_on_large_partition :
  exists st1,
    noMoreInput
      (addInputs
         (construct (collaborators := Keyed.collaborators)
            None 1 [] tt (fun _ => false))
         [Keyed.onePartition]) = Ok st1
    /\ spiller_ st1 = None
    /\ numRows_ st1 = 2 ^ 30 + 1
    /\ partitionStartRows_ st1 = [0; 1 - 2 ^ 30].
Proof.
  destruct (memory_run_wraps (collaborators := Keyed.collaborators)
              (@makeCompareFlags Keyed.collaborators 1 []) 1
              (KeyedFacts.sort_contract _)
              None [] tt [Keyed.onePartition] eq_refl)
    as (st1 & st2 & Heq & Hm & Hs & Hn & _ & Hstarts & _).
  - cbn [Row Keyed.collaborators].
    rewrite KeyedFacts.onePartition_batch.
    exact KeyedFacts.onePartition_range.
  - cbn [Row Keyed.collaborators].
    rewrite KeyedFacts.onePartition_batch.
    exact KeyedFacts.onePartition_same_keys.
  - exists st1.
    split; [exact Heq |]. split; [exact Hs |]. split; [| exact Hstarts].
    cbn [Row Keyed.collaborators] in Hn.
    rewrite Hn, KeyedFacts.onePartition_batch.
    exact KeyedFacts.onePartition_size.
Qed.



(** ** The properties at concrete inputs *)

(** X18 on the key sequence 1 1 2 2 2 3, from the first row of the second
    partition. *)
Lemma findNextPartitionStartRow_linear_scan_witness :
  findNextPartitionStartRow (collaborators := Keyed.collaborators)
    [(1, 0); (1, 1); (2, 0); (2, 1); (2, 2); (3, 0)] 2 = Some 5
  /\ nextPartitionStart (collaborators := Keyed.collaborators)
       [(1, 0); (1, 1); (2, 0); (2, 1); (2, 2); (3, 0)] 2 5.
Proof.
  apply (findNextPartitionStartRow_linear_scan
           (collaborators := Keyed.collaborators)
           [(1, 0); (1, 1); (2, 0); (2, 1); (2, 2); (3, 0)] 2).
  - exact KeyedFacts.order.
  - unfold partitionSorted. repeat constructor.
  - unfold size. cbn. lia.
  - unfold size. cbn. lia.
Defined.

Ltac keyed_premises :=
  first [ exact KeyedFacts.order
        | apply KeyedFacts.sort_contract
        | apply KeyedFacts.merge_contract
        | exact KeyedFacts.equality_contract
        | reflexivity
        | (unfold size; cbn; lia) ].

(** X19 on two batches with three distinct keys. *)
Lemma boundary_list_shape_witness :
  exists st',
    noMoreInput
      (addInputs
         (construct (collaborators := Keyed.collaborators) None 1 [] tt
            (fun _ => false))
         [[(2, 0); (1, 0); (2, 1)]; [(3, 0); (2, 2); (1, 1)]]) = Ok st'
    /\ (spiller_ st' = None ->
        exists bs,
          partitionStartRows_ st' = 0 :: bs
          /\ last (0 :: bs) 0 = 6
          /\ StronglySorted Z.lt (0 :: bs)
          /\ length bs = partitionCount (sortedRows_ st')
          /\ exists parts st'',
               drainAll st' = (Ok parts, st'')
               /\ length parts = length bs).
Proof.
  apply (boundary_list_shape (collaborators := Keyed.collaborators)
           (@makeCompareFlags Keyed.collaborators 1 []) 1); keyed_premises.
Defined.

(** X20 on the same two batches. *)
Lemma forced_spill_same_partitions_witness :
  exists spilled inMemory partsS partsM endS endM,
    noMoreInput
      (addInputs
         (construct (collaborators := Keyed.collaborators)
            (Some Keyed.spillConfig) 1 [] tt (fun _ => true))
         [[(2, 0); (1, 0); (2, 1)]; [(3, 0); (2, 2); (1, 1)]])
    = Ok spilled
    /\ noMoreInput
         (addInputs
            (construct (collaborators := Keyed.collaborators) None 1 [] tt
               (fun _ => false))
            [[(2, 0); (1, 0); (2, 1)]; [(3, 0); (2, 2); (1, 1)]])
       = Ok inMemory
    /\ (concat [[(2, 0); (1, 0); (2, 1)]; [(3, 0); (2, 2); (1, 1)]] <> []
        -> merge_ spilled <> None)
    /\ spiller_ inMemory = None /\ merge_ inMemory = None
    /\ drainAll spilled = (Ok partsS, endS)
    /\ drainAll inMemory = (Ok partsM, endM)
    /\ length partsS = length partsM
    /\ Forall2 (@Permutation (Z * Z)) partsS partsM.
Proof.
  apply (forced_spill_same_partitions
           (collaborators := Keyed.collaborators)
           (@makeCompareFlags Keyed.collaborators 1 []) 1); keyed_premises.
Defined.

(** X21 on the same two batches, with the spill forced. *)
Lemma rows_in_rows_out_witness :
  let st :=
    addInputs
      (construct (collaborators := Keyed.collaborators)
         (Some Keyed.spillConfig) 1 [] tt (fun _ => true))
      [[(2, 0); (1, 0); (2, 1)]; [(3, 0); (2, 2); (1, 1)]] in
  numRows_ st = 6
  /\ size (concat (spilledRuns st) ++ data_ st) = 6
  /\ exists st1 parts st2,
       noMoreInput st = Ok st1
       /\ numRows_ st1 = 6
       /\ drainAll st1 = (Ok parts, st2)
       /\ fold_right Z.add 0 (map size parts) = 6.
Proof.
  apply (rows_in_rows_out (collaborators := Keyed.collaborators)
           (@makeCompareFlags Keyed.collaborators 1 []) 1); keyed_premises.
Defined.

(** C5 on a stream of two partitions, over a buffer left by an earlier
    call. *)
Lemma hasNextPartition_loads_one_partition_witness :
  let st :=
    mkState (collaborators := Keyed.collaborators)
      (Some Keyed.spillConfig) 1 (@makeCompareFlags Keyed.collaborators 1 []) tt
      [(0, 9)] 4 [(0, 9)] [] (-1) (Some [])
      (Some [(1, 1); (1, 0); (2, 2)]) (fun _ => true) 2%nat [] in
  let more := fst (hasNextPartition st) in
  let st' := snd (hasNextPartition st) in
  exists rest,
    [(1, 1); (1, 0); (2, 2)] = sortedRows_ st' ++ rest
    /\ merge_ st' = Some rest
    /\ data_ st' = sortedRows_ st'
    /\ consecutiveKeysEqual 1 (sortedRows_ st')
    /\ stoppedAt 1 (sortedRows_ st') rest
    /\ ([(1, 1); (1, 0); (2, 2)] <> [] -> sortedRows_ st' <> [])
    /\ more = negb (isEmpty (sortedRows_ st'))
    /\ (more = true <-> sortedRows_ st' <> []).
Proof.
  apply (hasNextPartition_loads_one_partition
           (collaborators := Keyed.collaborators)).
  reflexivity.
Defined.



(** C7 on a builder that holds one row when a batch of two arrives. *)
Lemma ensureInputFits_reservation_refused_witness :
  let st :=
    mkState (collaborators := Keyed.collaborators)
      (Some Keyed.spillConfig) 1 (@makeCompareFlags Keyed.collaborators 1 []) tt
      [(1, 0)] 1 [] [] (-1) None None (fun _ => false) O [] in
  let input := [(2, 0); (1, 1)] in
  let st' := ensureInputFits st input in
  data_ st' = data_ st /\ numRows_ st' = numRows_ st
  /\ spiller_ st' = spiller_ st /\ merge_ st' = merge_ st
  /\ sortedRows_ st' = sortedRows_ st
  /\ partitionStartRows_ st' = partitionStartRows_ st
  /\ warnings_ st'
     = warnings_ st
       ++ [FailedToReserve
             (targetIncrementBytes Keyed.spillConfig st (size input))
             (@usedBytes Keyed.collaborators tt (data_ st))
             (@reservedBytes Keyed.collaborators tt (data_ st))]
  /\ data_ (addInput st input) = data_ st ++ input
  /\ numRows_ (addInput st input) = int32 (numRows_ st + size input)
  /\ spiller_ (addInput st input) = spiller_ st.
Proof.
  apply (ensureInputFits_reservation_refused
           (collaborators := Keyed.collaborators));
    first [reflexivity | discriminate].
Defined.

(** C8 on two empty batches. *)
Lemma no_rows_no_partition_witness :
  let st :=
    addInputs
      (construct (collaborators := Keyed.collaborators)
         (Some Keyed.spillConfig) 1 [] tt (fun _ => true))
      [[]; []] in
  noMoreInput st = Ok st
  /\ sortedRows_ st = [] /\ partitionStartRows_ st = []
  /\ spiller_ st = None /\ merge_ st = None
  /\ hasNextPartition st = (false, st).
Proof.
  apply (no_rows_no_partition (collaborators := Keyed.collaborators)).
  repeat constructor.
Defined.

(** C9 on a builder that holds three rows. *)
Lemma sorted_rows_check_never_fails_witness :
  let st :=
    addInputs
      (construct (collaborators := Keyed.collaborators) None 1 [] tt
         (fun _ => false))
      [[(2, 0); (1, 0)]; [(1, 1)]] in
  (numRows_ st = 0 -> noMoreInput st = Ok st)
  /\ (numRows_ st <> 0 ->
      size (resize (Z.to_nat (u64 (numRows_ st))) (sortedRows_ st)
              (@nullRow Keyed.collaborators))
      = u64 (numRows_ st)
      /\ 0 < u64 (numRows_ st)
      /\ sortPartitions st <> Fail SortedRowsEmpty)
  /\ noMoreInput st <> Fail SortedRowsEmpty.
Proof.
  apply (sorted_rows_check_never_fails
           (collaborators := Keyed.collaborators)).
  - intros rows. apply Permutation_length.
    apply (KeyedFacts.sort_contract _ rows).
  - vm_compute. split; [discriminate | reflexivity].
Defined.

(** C10 on a builder in merge mode with one partition buffered. *)
Lemma nextPartition_merge_mode_reads_only_witness :
  let st :=
    mkState (collaborators := Keyed.collaborators)
      (Some Keyed.spillConfig) 1 (@makeCompareFlags Keyed.collaborators 1 []) tt
      [(1, 1); (1, 0)] 3 [(1, 1); (1, 0)] [] (-1) (Some [])
      (Some [(2, 2)]) (fun _ => true) 2%nat [] in
  snd (nextPartition st) = st
  /\ (sortedRows_ st <> [] -> fst (nextPartition st) = Ok (sortedRows_ st))
  /\ fst (nextPartition (snd (nextPartition st))) = fst (nextPartition st)
  /\ exists rest,
       merge_ (snd (hasNextPartition st)) = Some rest
       /\ [(2, 2)] = sortedRows_ (snd (hasNextPartition st)) ++ rest.
Proof.
  apply (nextPartition_merge_mode_reads_only
           (collaborators := Keyed.collaborators)).
  reflexivity.
Defined.

(** ** The further properties at concrete inputs *)

(** X2 on rows that are not sorted. *)
Lemma findNextPartitionStartRow_in_range_witness :
  exists p,
    findNextPartitionStartRow (collaborators := Keyed.collaborators)
      [(2, 0); (1, 0); (3, 0); (1, 1); (2, 1)] 1 = Some p
    /\ 1 < p <= 5.
Proof.
  apply (findNextPartitionStartRow_in_range
           (collaborators := Keyed.collaborators)
           [(2, 0); (1, 0); (3, 0); (1, 1); (2, 1)] 1);
    unfold size; cbn; lia.
Defined.

(** X3 on an unsorted array, with a boundary list already there. *)
Lemma computePartitionStartRows_well_formed_witness :
  let st :=
    mkState (collaborators := Keyed.collaborators)
      None 1 (@makeCompareFlags Keyed.collaborators 1 []) tt
      [(2, 0); (1, 0); (3, 0)] 3 [(2, 0); (1, 0); (3, 0)] [0; 3] (-1)
      None None (fun _ => false) O [] in
  exists bs,
    computePartitionStartRows st
    = Ok (with_partitionStartRows st (partitionStartRows_ st ++ 0 :: bs))
    /\ StronglySorted Z.lt (0 :: bs)
    /\ last (0 :: bs) 0 = size (sortedRows_ st)
    /\ 1 <= size bs <= size (sortedRows_ st).
Proof.
  apply (computePartitionStartRows_well_formed
           (collaborators := Keyed.collaborators)).
  unfold size. cbn. lia.
Defined.

(** X4 on the key sequence 1 1 2 2 2 3, inside the second partition. *)
Lemma findNextPartitionStartRow_same_partition_witness :
  findNextPartitionStartRow (collaborators := Keyed.collaborators)
    [(1, 0); (1, 1); (2, 0); (2, 1); (2, 2); (3, 0)] 4 = Some 5.
Proof.
  apply (findNextPartitionStartRow_same_partition
           (collaborators := Keyed.collaborators)
           [(1, 0); (1, 1); (2, 0); (2, 1); (2, 2); (3, 0)] 2 4 5).
  - exact KeyedFacts.order.
  - unfold partitionSorted. repeat constructor.
  - unfold size. cbn. lia.
  - unfold size. cbn. lia.
  - reflexivity.
  - lia.
Defined.

(** X5 on four rows of one key. *)
Lemma findNextPartitionStartRow_one_partition_witness :
  findNextPartitionStartRow (collaborators := Keyed.collaborators)
    [(7, 0); (7, 1); (7, 2); (7, 3)] 1
  = Some (size [(7, 0); (7, 1); (7, 2); (7, 3)]).
Proof.
  apply (findNextPartitionStartRow_one_partition
           (collaborators := Keyed.collaborators)
           [(7, 0); (7, 1); (7, 2); (7, 3)] 1).
  - unfold size. cbn. lia.
  - unfold size. cbn. lia.
  - intros i j a b Hi Hij Ha Hb.
    assert (Hkey : forall k r,
              vectorAt [(7, 0); (7, 1); (7, 2); (7, 3)] k = Some r ->
              fst r = 7).
    { intros k r Hr. pose proof (vectorAt_range _ _ _ Hr) as Hk.
      unfold size in Hk. cbn in Hk.
      assert (Hcases : k = 0 \/ k = 1 \/ k = 2 \/ k = 3) by lia.
      destruct Hcases as [-> | [-> | [-> | ->]]];
        cbn in Hr; injection Hr as <-; reflexivity. }
    cbn. unfold Keyed.before.
    rewrite (Hkey i a Ha), (Hkey j b Hb). reflexivity.
Defined.

(** X6 on rows that are not sorted after the second one. *)
Lemma findNextPartitionStartRow_next_row_differs_witness :
  findNextPartitionStartRow (collaborators := Keyed.collaborators)
    [(1, 0); (2, 0); (1, 1); (0, 0)] 0 = Some (0 + 1).
Proof.
  apply (findNextPartitionStartRow_next_row_differs
           (collaborators := Keyed.collaborators)
           [(1, 0); (2, 0); (1, 1); (0, 0)] 0 (1, 0) (2, 0)).
  - unfold size. cbn. lia.
  - reflexivity.
  - reflexivity.
  - reflexivity.
Defined.

(** X8 on a builder with one run written, that holds two rows. *)
Lemma addInput_forced_spill_witness :
  let st :=
    mkState (collaborators := Keyed.collaborators)
      (Some Keyed.spillConfig) 1 (@makeCompareFlags Keyed.collaborators 1 []) tt
      [(2, 0); (1, 0)] 3 [] [] (-1) (Some [[(5, 0)]]) None
      (fun _ => true) 1%nat [] in
  let st' := addInput st [(3, 0)] in
  data_ st' = [(3, 0)]
  /\ spiller_ st'
     = Some (spilledRuns st ++ [spillRun (compareFlags_ st) (data_ st)])
  /\ numRows_ st' = int32 (numRows_ st + size [(3, 0)])
  /\ pool_ st' = release (pool_ st)
  /\ warnings_ st' = warnings_ st
  /\ spillChecks_ st' = S (spillChecks_ st).
Proof.
  apply (addInput_forced_spill (collaborators := Keyed.collaborators)
           _ _ Keyed.spillConfig);
    first [reflexivity | discriminate].
Defined.

(** X9 on a builder in merge mode. *)
Lemma noMoreInput_twice_merge_mode_witness :
  noMoreInput
    (mkState (collaborators := Keyed.collaborators)
       (Some Keyed.spillConfig) 1
       (@makeCompareFlags Keyed.collaborators 1 []) tt
       [] 2 [] [] (-1) (Some [[(1, 0); (2, 0)]])
       (Some [(1, 0); (2, 0)]) (fun _ => false) 1%nat [])
  = Fail MergeNotNull.
Proof.
  apply (noMoreInput_twice_merge_mode
           (collaborators := Keyed.collaborators));
    cbn; discriminate.
Defined.

(** X10 on a stream of three partitions. *)
Lemma hasNextPartition_twice_merge_mode_witness :
  let st :=
    mkState (collaborators := Keyed.collaborators)
      (Some Keyed.spillConfig) 1 (@makeCompareFlags Keyed.collaborators 1 []) tt
      [] 4 [] [] (-1) (Some [])
      (Some [(1, 1); (1, 0); (2, 2); (3, 0)]) (fun _ => true) 2%nat [] in
  let st1 := snd (hasNextPartition st) in
  let st2 := snd (hasNextPartition st1) in
  exists rest,
    [(1, 1); (1, 0); (2, 2); (3, 0)]
    = sortedRows_ st1 ++ sortedRows_ st2 ++ rest
    /\ merge_ st2 = Some rest
    /\ data_ st2 = sortedRows_ st2
    /\ (sortedRows_ st2 = [] -> rest = []).
Proof.
  apply (hasNextPartition_twice_merge_mode
           (collaborators := Keyed.collaborators)).
  reflexivity.
Defined.

(** X11 on a stream of three keys, with no partition key. *)
Lemma hasNextPartition_no_partition_keys_witness :
  let st :=
    mkState (collaborators := Keyed.collaborators)
      (Some Keyed.spillConfig) 0 (@makeCompareFlags Keyed.collaborators 0 []) tt
      [] 3 [] [] (-1) (Some [])
      (Some [(1, 1); (2, 2); (3, 0)]) (fun _ => true) 2%nat [] in
  let st' := snd (hasNextPartition st) in
  sortedRows_ st' = [(1, 1); (2, 2); (3, 0)]
  /\ data_ st' = [(1, 1); (2, 2); (3, 0)] /\ merge_ st' = Some []
  /\ fst (hasNextPartition st) = negb (isEmpty [(1, 1); (2, 2); (3, 0)]).
Proof.
  apply (hasNextPartition_no_partition_keys
           (collaborators := Keyed.collaborators));
    reflexivity.
Defined.

(** X12 on a builder whose two partitions have been handed out. *)
Lemma nextPartition_exhausted_memory_mode_witness :
  let st :=
    mkState (collaborators := Keyed.collaborators)
      None 1 (@makeCompareFlags Keyed.collaborators 1 []) tt
      [(1, 0); (2, 0)] 2 [(1, 0); (2, 0)] [0; 1; 2] 1
      None None (fun _ => false) O [] in
  nextPartition st
  = (Fail AllWindowPartitionsConsumed,
     with_currentPartition st (currentPartition_ st + 1))
  /\ fst (hasNextPartition st) = false
  /\ fst (hasNextPartition (snd (nextPartition st))) = false.
Proof.
  apply (nextPartition_exhausted_memory_mode
           (collaborators := Keyed.collaborators));
    first [reflexivity | (unfold size; cbn; lia)].
Defined.

(** X13 on two batches with a [spill()] between them. *)
Lemma partitions_grouped_by_key_witness :
  exists st1 parts st2,
    noMoreInput
      (calls (collaborators := Keyed.collaborators)
         (construct (collaborators := Keyed.collaborators)
            (Some Keyed.spillConfig) 1 [] tt (fun _ => false))
         [@CallAddInput Keyed.collaborators [(2, 0); (1, 0); (2, 1)]; CallSpill;
          @CallAddInput Keyed.collaborators [(3, 0); (2, 2); (1, 1)]])
    = Ok st1
    /\ drainAll st1 = (Ok parts, st2)
    /\ Permutation (concat parts)
         (inputOf
            [@CallAddInput Keyed.collaborators [(2, 0); (1, 0); (2, 1)];
             CallSpill;
             @CallAddInput Keyed.collaborators [(3, 0); (2, 2); (1, 1)]])
    /\ (forall i p a b, nth_error parts i = Some p -> In a p -> In b p ->
                        keysDiffer a b = false)
    /\ (forall i j p q a b, (i < j)%nat ->
          nth_error parts i = Some p -> nth_error parts j = Some q ->
          In a p -> In b q -> compareRowsWithKeys a b = true).
Proof.
  apply (partitions_grouped_by_key (collaborators := Keyed.collaborators)
           (@makeCompareFlags Keyed.collaborators 1 []) 1);
    first [keyed_premises | (intros H; discriminate)].
Defined.

(** X14 on the same calls. *)
Lemma views_in_sorted_order_witness :
  exists st1 parts st2,
    noMoreInput
      (calls (collaborators := Keyed.collaborators)
         (construct (collaborators := Keyed.collaborators)
            (Some Keyed.spillConfig) 1 [] tt (fun _ => false))
         [@CallAddInput Keyed.collaborators [(2, 0); (1, 0); (2, 1)]; CallSpill;
          @CallAddInput Keyed.collaborators [(3, 0); (2, 2); (1, 1)]])
    = Ok st1
    /\ drainAll st1 = (Ok parts, st2)
    /\ (merge_ st1 = None -> concat parts = sortedRows_ st1)
    /\ (forall stream, merge_ st1 = Some stream -> concat parts = stream).
Proof.
  apply (views_in_sorted_order (collaborators := Keyed.collaborators)
           (@makeCompareFlags Keyed.collaborators 1 []) 1);
    first [keyed_premises | (intros H; discriminate)].
Defined.


